(** * atomic_ptr: lock-free reference counted smart pointer

    A shallow embedding of [trunk/atomic-ptr/atomic_ptr.h] (J. W. Seigh):
    the reference block [atomic_ptr_ref], the thread-local handle
    [local_ptr] and the shared slot [atomic_ptr], followed by the
    properties of the counting protocol.

    Conventions.
    - A C++ [long] is a [Z] kept inside [LONG_MIN, LONG_MAX]; an addition
      that leaves the range is undefined behaviour and is reported as the
      fault [SignedOverflow].
    - A pointer is an [option]: [None] is the null pointer [0].
    - The free store is a finite map from block addresses to blocks.
      Addresses name allocations: [new] never hands out an address twice.
    - Every CAS loop is written with the interference it can meet: the
      list [env] holds the values other threads leave in the shared cell
      before each later attempt; the loops are run with fuel. *)

From stdpp Require Import gmap list.

Open Scope Z_scope.

(** ** Faults and the two monads *)

Inductive fault :=
| SignedOverflow   (* long arithmetic left its range *)
| NullDeref        (* a member was accessed through a null pointer *)
| Dangling         (* a block was accessed after it was freed *)
| FuelExhausted    (* a retry loop was cut off by the model *)
| NoSuchObject     (* a scenario names a handle or slot that does not exist *)
| NotPooled.       (* a scenario re-installs a block no pool hook received *)

Definition result (A : Type) : Type := fault + A.

#[global] Instance result_ret : MRet result := λ A x, inr x.
#[global] Instance result_bind : MBind result := λ A B f m,
  match m with inl e => inl e | inr x => f x end.

#[global] Instance fault_eq_dec : EqDecision fault := ltac:(solve_decision).

(** ** Machine integers *)

Definition LONG_MAX : Z := 2 ^ 63 - 1.
Definition LONG_MIN : Z := - 2 ^ 63.

Definition in_long (z : Z) : Prop := LONG_MIN ≤ z ≤ LONG_MAX.

#[global] Instance in_long_dec z : Decision (in_long z) :=
  ltac:(unfold in_long; apply _).

(** [x + y] on [long]. *)
Definition add_long (x y : Z) : result Z :=
  if decide (in_long (x + y)) then inr (x + y) else inl SignedOverflow.

(** A C++ [int] used as a condition. *)
Definition int_true (n : Z) : bool := negb (n =? 0).

(** ** Data *)

Definition addr := positive.          (* atomic_ptr_ref<T> *, when not null *)
Definition object := positive.        (* T *, when not null *)
Definition hook := positive.          (* a pool_put_t function, when not null *)
Abbreviation pool_put_t := (option hook).

(** [struct refcount]. *)
Record refcount := Refcount { ecount : Z; rcount : Z }.

(** [struct ref<T>]. *)
Record ref := Ref { ref_ecount : Z; ref_ptr : option addr }.

(** [class atomic_ptr_ref<T>]. *)
Record atomic_ptr_ref := Block {
  count : refcount;
  ptr : option object;
  pool : pool_put_t;
  next : option addr
}.

(** [class local_ptr<T>]. *)
Record local_ptr := Local { refptr : option addr }.

(** [class atomic_ptr<T>]. *)
Record atomic_ptr := Atomic { xxx : ref }.

#[global] Instance refcount_eq_dec : EqDecision refcount := ltac:(solve_decision).
#[global] Instance ref_eq_dec : EqDecision ref := ltac:(solve_decision).
#[global] Instance atomic_ptr_ref_eq_dec : EqDecision atomic_ptr_ref := ltac:(solve_decision).
#[global] Instance local_ptr_eq_dec : EqDecision local_ptr := ltac:(solve_decision).
#[global] Instance atomic_ptr_eq_dec : EqDecision atomic_ptr := ltac:(solve_decision).

Definition set_count (c : refcount) (b : atomic_ptr_ref) : atomic_ptr_ref :=
  Block c (ptr b) (pool b) (next b).
Definition set_pool (p : pool_put_t) (b : atomic_ptr_ref) : atomic_ptr_ref :=
  Block (count b) (ptr b) p (next b).

(** ** Platform primitives *)

(** Modelled from the spec: [atomix.h] is not among the sources.  The
    compare-and-swap over a pair ([atomic_cas], [atomic_cas_rel],
    [atomic_cas_sync], which differ in memory ordering only) compares the
    cell with [*oldval]; when equal it stores [*newval] and answers
    non-zero, otherwise it copies the cell into [*oldval] and answers 0.
    The result is (succeeded, cell afterwards, [*oldval] afterwards). *)
Definition atomic_cas {A} `{EqDecision A} (cell oldval newval : A) : bool * A * A :=
  if decide (cell = oldval) then (true, newval, oldval) else (false, cell, cell).

(** Modelled from the spec: [atomix.h] is not among the sources.  A
    dependent load yields the value stored at the location. *)
Definition atomic_load_depends {A} (x : A) : A := x.

(** ** atomic_ptr_ref::adjust *)

(** The [do ... while] of [adjust]. [cnt] is the shared [count] at the next
    CAS attempt, [oldval] the local copy; after a failed attempt the cell
    holds [hd cnt env] at the following one. The result is the returned
    [int] and the value left in [count]. *)
Fixpoint adjust_loop (fuel : nat) (env : list refcount) (cnt oldval : refcount)
    (xephemeralCount xreferenceCount : Z) : result (Z * refcount) :=
  match fuel with
  | O => inl FuelExhausted
  | S fuel' =>
      ne ← add_long (ecount oldval) xephemeralCount;
      nr ← add_long (rcount oldval) xreferenceCount;
      let newval := Refcount ne nr in
      match atomic_cas cnt oldval newval with
      | (true, cnt', _) =>
          mret (if decide (ecount newval = 0 ∧ rcount newval = 0) then 0 else 1, cnt')
      | (false, _, oldval') =>
          adjust_loop fuel' (tail env) (hd cnt env) oldval'
            xephemeralCount xreferenceCount
      end
  end.

(** [adjust] with no other thread touching [count]: the initial read sees
    the cell and the first CAS succeeds. *)
Definition adjust (cnt : refcount) (xe xr : Z) : result (Z * refcount) :=
  adjust_loop 1 [] cnt cnt xe xr.

(** ** The free store *)

(** What the library does to the outside world when counts reach zero. *)
Inductive event :=
| EvDelete (p : object)          (* [delete ptr]: the payload is destructed *)
| EvFree (a : addr)              (* the storage of block [a] is released *)
| EvPool (f : hook) (a : addr).  (* [refptr->pool(refptr)] *)

#[global] Instance event_eq_dec : EqDecision event := ltac:(solve_decision).

Record machine := Machine {
  heap : gmap addr atomic_ptr_ref;
  brk : addr;                    (* next address [new] hands out *)
  log : list event
}.

Definition M (A : Type) : Type := machine → result (A * machine).

#[global] Instance M_ret : MRet M := λ A x m, inr (x, m).
#[global] Instance M_bind : MBind M := λ A B f c m,
  match c m with inl e => inl e | inr (x, m') => f x m' end.

Definition fail {A} (e : fault) : M A := λ _, inl e.
Definition lift {A} (r : result A) : M A := λ m,
  match r with inl e => inl e | inr x => inr (x, m) end.

Definition load (a : addr) : M atomic_ptr_ref := λ m,
  match heap m !! a with
  | Some b => inr (b, m)
  | None => inl Dangling
  end.

Definition store (a : addr) (b : atomic_ptr_ref) : M unit := λ m,
  match heap m !! a with
  | Some _ => inr (tt, Machine (<[a:=b]> (heap m)) (brk m) (log m))
  | None => inl Dangling
  end.

Definition emit (e : event) : M unit := λ m,
  inr (tt, Machine (heap m) (brk m) (log m ++ [e])).

(** [new atomic_ptr_ref<T>(p)], with the constructor's initial values. *)
Definition new_atomic_ptr_ref (p : option object) : M addr := λ m,
  let a := brk m in
  inr (a, Machine (<[a:=Block (Refcount 0 1) p None None]> (heap m))
                  (Pos.succ a) (log m)).

Definition release_storage (a : addr) : M unit := λ m,
  inr (tt, Machine (delete a (heap m)) (brk m) (log m ++ [EvFree a])).

(** [delete refptr]: the destructor runs [delete ptr] (nothing for a null
    payload), then the block's storage is released. *)
Definition delete_atomic_ptr_ref (a : addr) : M unit :=
  b ← load a;
  match ptr b with Some p => emit (EvDelete p) | None => mret tt end;;
  release_storage a.

(** [refptr->adjust(xe, xr)] on the block at [a]. *)
Definition adjust_at (a : addr) (xe xr : Z) : M Z :=
  b ← load a;
  '(rc, c) ← lift (adjust (count b) xe xr);
  store a (set_count c b);;
  mret rc.

(** The tail shared by both destructors:
    [if (refptr->pool == 0) delete refptr; else refptr->pool(refptr);] *)
Definition destroy_or_recycle (a : addr) : M unit :=
  b ← load a;
  match pool b with
  | None => delete_atomic_ptr_ref a
  | Some f => emit (EvPool f a)
  end.

(** ** local_ptr *)

(** [local_ptr(T * obj = 0)]. *)
Definition local_of_obj (obj : option object) : M local_ptr :=
  match obj with
  | Some _ =>
      a ← new_atomic_ptr_ref obj;
      b ← load a;
      store a (set_count (Refcount 1 0) b);;
      mret (Local (Some a))
  | None => mret (Local None)
  end.

(** [local_ptr(const local_ptr<T> & src)]. *)
Definition local_copy (src : local_ptr) : M local_ptr :=
  match refptr src with
  | Some a => adjust_at a 1 0;; mret (Local (Some a))
  | None => mret (Local None)
  end.

(** [local_ptr(atomic_ptr_ref<T> * src)]: a recycled block. *)
Definition local_recycled (src : option addr) : M local_ptr :=
  match src with
  | Some a =>
      b ← load a;
      store a (set_count (Refcount 1 0) b);;
      mret (Local (Some a))
  | None => mret (Local None)
  end.

(** [~local_ptr()]. *)
Definition local_dtor (this : local_ptr) : M unit :=
  match refptr this with
  | Some a =>
      rc ← adjust_at a (-1) 0;
      if decide (rc = 0) then destroy_or_recycle a else mret tt
  | None => mret tt
  end.

(** [local_ptr::swap], the non-atomic exchange of two handles:
    (this, other) afterwards. *)
Definition local_swap (this other : local_ptr) : local_ptr * local_ptr :=
  let temp := refptr this in
  (Local (refptr other), Local temp).

(** [T * get()]. *)
Definition get (this : local_ptr) : M (option object) :=
  match refptr this with
  | Some a => b ← load a; mret (atomic_load_depends (ptr b))
  | None => mret None
  end.

(** [T * operator -> ()]. *)
Definition local_arrow (this : local_ptr) : M (option object) := get this.

(** [T & operator * ()]: [*get()]. *)
Definition local_star (this : local_ptr) : M object :=
  p ← get this;
  match p with
  | Some o => mret o
  | None => fail NullDeref
  end.

(** [bool operator == (local_ptr<T> & rhd)]. *)
Definition local_eq (this rhd : local_ptr) : bool :=
  bool_decide (refptr this = refptr rhd).

(** [bool operator == (T * rhd)]. *)
Definition local_eq_obj (this : local_ptr) (rhd : option object) : M bool :=
  p ← get this; mret (bool_decide (rhd = p)).

(** [void setPool(pool_put_t pool)]. *)
Definition setPool (this : local_ptr) (p : pool_put_t) : M unit :=
  match refptr this with
  | Some a => b ← load a; store a (set_pool p b)
  | None => fail NullDeref
  end.

(** [pool_put_t getPool()]. *)
Definition getPool (this : local_ptr) : M pool_put_t :=
  match refptr this with
  | Some a => b ← load a; mret (pool b)
  | None => fail NullDeref
  end.

(** The three [operator =] and [recycle]: build a temporary, swap, and let
    the temporary (now holding the old block) be destructed. *)
Definition local_assign_obj (this : local_ptr) (obj : option object) : M local_ptr :=
  temp ← local_of_obj obj;
  let '(this', temp') := local_swap this temp in
  local_dtor temp';; mret this'.

Definition local_assign_local (this src : local_ptr) : M local_ptr :=
  temp ← local_copy src;
  let '(this', temp') := local_swap this temp in
  local_dtor temp';; mret this'.

Definition recycle (this : local_ptr) (src : option addr) : M local_ptr :=
  temp ← local_recycled src;
  let '(this', temp') := local_swap this temp in
  local_dtor temp';; mret this'.

(** ** atomic_ptr *)

(** The [do ... while] of [getrefptr]; the result is the returned pointer
    and the value left in [xxx]. *)
Fixpoint getrefptr_loop (fuel : nat) (env : list ref) (cell oldval : ref)
    : result (option addr * ref) :=
  match fuel with
  | O => inl FuelExhausted
  | S fuel' =>
      ne ← add_long (ref_ecount oldval) 1;
      let newval := Ref ne (ref_ptr oldval) in
      match atomic_cas cell oldval newval with
      | (true, cell', oldval') => mret (atomic_load_depends (ref_ptr oldval'), cell')
      | (false, _, oldval') => getrefptr_loop fuel' (tail env) (hd cell env) oldval'
      end
  end.

(** [getrefptr] with no other thread touching the slot. *)
Definition getrefptr (this : atomic_ptr) : result (option addr * atomic_ptr) :=
  '(p, cell) ← getrefptr_loop 1 [] (xxx this) (xxx this);
  mret (p, Atomic cell).

(** [local_ptr(atomic_ptr<T> & src)]: the pin. Yields the handle and the
    slot as the pin leaves it. *)
Definition local_of_atomic (src : atomic_ptr) : M (local_ptr * atomic_ptr) :=
  '(p, src') ← lift (getrefptr src);
  mret (Local p, src').

Definition local_assign_atomic (this : local_ptr) (src : atomic_ptr)
    : M (local_ptr * atomic_ptr) :=
  '(temp, src') ← local_of_atomic src;
  let '(this', temp') := local_swap this temp in
  local_dtor temp';; mret (this', src').

(** [atomic_ptr(T * obj = 0)]. *)
Definition atomic_of_obj (obj : option object) : M atomic_ptr :=
  match obj with
  | Some _ => a ← new_atomic_ptr_ref obj; mret (Atomic (Ref 0 (Some a)))
  | None => mret (Atomic (Ref 0 None))
  end.

(** [atomic_ptr(local_ptr<T> & src)]. *)
Definition atomic_of_local (src : local_ptr) : M atomic_ptr :=
  match refptr src with
  | Some a => adjust_at a 0 1;; mret (Atomic (Ref 0 (Some a)))
  | None => mret (Atomic (Ref 0 None))
  end.

(** [atomic_ptr(atomic_ptr<T> & src)]: the new slot and [src] afterwards. *)
Definition atomic_copy (src : atomic_ptr) : M (atomic_ptr * atomic_ptr) :=
  '(p, src') ← lift (getrefptr src);
  match p with
  | Some a => adjust_at a (-1) 1;; mret (Atomic (Ref 0 p), src')
  | None => mret (Atomic (Ref 0 p), src')
  end.

(** [atomic_ptr(atomic_ptr_ref<T> * src)]: a recycled block. *)
Definition atomic_recycled (src : option addr) : M atomic_ptr :=
  match src with
  | Some a =>
      b ← load a;
      store a (set_count (Refcount 0 1) b);;
      mret (Atomic (Ref 0 src))
  | None => mret (Atomic (Ref 0 src))
  end.

(** [~atomic_ptr()]. *)
Definition atomic_dtor (this : atomic_ptr) : M unit :=
  match ref_ptr (xxx this) with
  | Some a =>
      rc ← adjust_at a (ref_ecount (xxx this)) (-1);
      if decide (rc = 0) then destroy_or_recycle a else mret tt
  | None => mret tt
  end.

(** The [while] of [atomic_ptr::swap]: the value left in [xxx] and the
    pair moved into [obj.xxx]. *)
Fixpoint swap_loop (fuel : nat) (env : list ref) (cell temp objxxx : ref)
    : result (ref * ref) :=
  match fuel with
  | O => inl FuelExhausted
  | S fuel' =>
      match atomic_cas cell temp objxxx with
      | (true, cell', temp') => mret (cell', Ref (ref_ecount temp') (ref_ptr temp'))
      | (false, cell', temp') => swap_loop fuel' (tail env) (hd cell' env) temp' objxxx
      end
  end.

(** [swap] with no other thread touching the slot: (this, obj) afterwards. *)
Definition swap (this obj : atomic_ptr) : result (atomic_ptr * atomic_ptr) :=
  '(cell, o) ← swap_loop 1 [] (xxx this) (Ref (ref_ecount (xxx this)) (ref_ptr (xxx this))) (xxx obj);
  mret (Atomic cell, Atomic o).

(** The [do ... while] of [atomic_ptr::cas], entered with [temp] set up;
    [cmp] is [cmp.refptr]. The result is [rc], the value left in [xxx] and
    the value left in [xchg.xxx]. *)
Fixpoint cas_loop (fuel : nat) (env : list ref) (cell temp : ref)
    (cmp : option addr) (xchg : ref) : result (bool * ref * ref) :=
  match fuel with
  | O => inl FuelExhausted
  | S fuel' =>
      match atomic_cas cell temp xchg with
      | (true, cell', temp') => mret (true, cell', temp')
      | (false, cell', temp') =>
          if decide (cmp = ref_ptr temp')
          then cas_loop fuel' (tail env) (hd cell' env) temp' cmp xchg
          else mret (false, cell', xchg)
      end
  end.

(** The body of [cas(cmp, xchg)] when the slot held [seen] at the moment
    [temp.ecount = xxx.ecount] was read and holds [cell] at the first CAS. *)
Definition cas_run (fuel : nat) (env : list ref) (seen cell : ref)
    (cmp : local_ptr) (xchg : atomic_ptr) : result (bool * ref * ref) :=
  cas_loop fuel env cell (Ref (ref_ecount seen) (refptr cmp)) (refptr cmp) (xxx xchg).

(** The body of [cas] with no other thread touching the slot:
    [rc], this and [xchg] afterwards. *)
Definition cas (this : atomic_ptr) (cmp : local_ptr) (xchg : atomic_ptr)
    : result (bool * atomic_ptr * atomic_ptr) :=
  '(rc, cell, x) ← cas_run 1 [] (xxx this) (xxx this) cmp xchg;
  mret (rc, Atomic cell, Atomic x).

(** [atomic_ptr::operator =] from a payload or a handle, and [recyle]: a temporary
    slot is built, swapped in, and destructed with the old pair. *)
Definition atomic_assign_obj (this : atomic_ptr) (obj : option object) : M atomic_ptr :=
  temp ← atomic_of_obj obj;
  '(this', temp') ← lift (swap this temp);
  atomic_dtor temp';; mret this'.

Definition atomic_assign_local (this : atomic_ptr) (src : local_ptr) : M atomic_ptr :=
  temp ← atomic_of_local src;
  '(this', temp') ← lift (swap this temp);
  atomic_dtor temp';; mret this'.

Definition recyle (this : atomic_ptr) (src : option addr) : M atomic_ptr :=
  temp ← atomic_recycled src;
  '(this', temp') ← lift (swap this temp);
  atomic_dtor temp';; mret this'.

(** [atomic_ptr::operator -> ()] followed by the end of the expression: the
    temporary handle is made, dereferenced and destructed. Yields the
    payload pointer seen and the slot afterwards. *)
Definition atomic_arrow (this : atomic_ptr) : M (option object * atomic_ptr) :=
  '(temp, this') ← local_of_atomic this;
  p ← local_arrow temp;
  local_dtor temp;; mret (p, this').

(** [bool atomic_ptr::operator == (local_ptr<T> & rhd)]. *)
Definition atomic_eq_local (this : atomic_ptr) (rhd : local_ptr) : M (bool * atomic_ptr) :=
  '(temp, this') ← local_of_atomic this;
  let r := local_eq temp rhd in
  local_dtor temp;; mret (r, this').

(** [bool local_ptr::operator == (atomic_ptr<T> & rhd)]: compares with the
    slot's block pointer as it is, without pinning. *)
Definition local_eq_atomic (this : local_ptr) (rhd : atomic_ptr) : bool :=
  bool_decide (refptr this = ref_ptr (xxx rhd)).

(** [bool atomic_ptr::operator == (T * rhd)]: against null the slot's
    pointer is inspected in place; otherwise a temporary handle is made,
    compared and destructed. *)
Definition atomic_eq_obj (this : atomic_ptr) (rhd : option object)
    : M (bool * atomic_ptr) :=
  match rhd with
  | None => mret (bool_decide (ref_ptr (xxx this) = None), this)
  | Some _ =>
      '(temp, this') ← local_of_atomic this;
      r ← local_eq_obj temp rhd;
      local_dtor temp;; mret (r, this')
  end.

(** ** Programs over handles and slots *)

(** A single-threaded client: the free store, the slots and handles it
    currently owns (named by position), and, as ghosts, the [setPool]
    calls made so far and the blocks taken back out of a pool so far. *)
Record world := World {
  mach : machine;
  slots : list atomic_ptr;
  handles : list local_ptr;
  hist : list (addr * pool_put_t);
  taken : list addr
}.

(** The public operations, one constructor per call a client can write. *)
Inductive op :=
| NewHandle (obj : option object)            (* local_ptr<T> h(obj) *)
| CopyHandle (i : nat)                       (* local_ptr<T> h(handles[i]) *)
| Pin (s : nat)                              (* local_ptr<T> h(slots[s]) *)
| RecycledHandle (a : addr)                  (* local_ptr<T> h(block) *)
| DropHandle (i : nat)                       (* handles[i] goes out of scope *)
| AssignHandleObj (i : nat) (obj : option object)
| AssignHandleHandle (i j : nat)             (* handles[i] = handles[j] *)
| AssignHandleSlot (i s : nat)               (* handles[i] = slots[s] *)
| HandleRecycle (i : nat) (a : addr)         (* handles[i].recycle(block) *)
| SetPool (i : nat) (p : pool_put_t)         (* handles[i].setPool(p) *)
| NewSlot (obj : option object)              (* atomic_ptr<T> s(obj) *)
| SlotOfHandle (i : nat)                     (* atomic_ptr<T> s(handles[i]) *)
| CopySlot (s : nat)                         (* atomic_ptr<T> s(slots[s]) *)
| RecycledSlot (a : addr)                    (* atomic_ptr<T> s(block) *)
| DropSlot (s : nat)                         (* slots[s] goes out of scope *)
| AssignSlotObj (s : nat) (obj : option object)
| AssignSlotHandle (s i : nat)               (* slots[s] = handles[i] *)
| AssignSlotSlot (s t : nat)                 (* slots[s] = slots[t] *)
| SlotRecyle (s : nat) (a : addr)            (* slots[s].recyle(block) *)
| Arrow (s : nat)                            (* slots[s]->member *)
| EqSlotHandle (s i : nat)                   (* slots[s] == handles[i] *)
| Swap (s t : nat)                           (* slots[s].swap(slots[t]) *)
| Cas (s i d : nat).                         (* slots[s].cas(handles[i], slots[d]) *)

Definition obj_at {A} (l : list A) (i : nat) : result A :=
  match l !! i with
  | Some x => inr x
  | None => inl NoSuchObject
  end.

(** A raw block pointer may be handed to a recycle-install constructor
    only when a pool hook received that block: it is still allocated and
    both of its counts are zero. *)
Definition from_pool (a : addr) (m : machine) : result unit :=
  match heap m !! a with
  | Some b => if decide (count b = Refcount 0 0) then inr tt else inl NotPooled
  | None => inl NotPooled
  end.

Definition note_pool (h : local_ptr) (p : pool_put_t) (l : list (addr * pool_put_t))
    : list (addr * pool_put_t) :=
  match refptr h with
  | Some a => l ++ [(a, p)]
  | None => l
  end.

(** One call. [cas] takes both arguments by value: [cmp] is copy-constructed
    from the handle and [xchg] from the slot before the body runs, and both
    are destructed (in reverse order) when it returns. *)
Definition step (o : op) (w : world) : result world :=
  let '(World m ss hs hi tk) := w in
  match o with
  | NewHandle obj =>
      '(h, m1) ← local_of_obj obj m;
      mret (World m1 ss (hs ++ [h]) hi tk)
  | CopyHandle i =>
      src ← obj_at hs i;
      '(h, m1) ← local_copy src m;
      mret (World m1 ss (hs ++ [h]) hi tk)
  | Pin s =>
      src ← obj_at ss s;
      '((h, src'), m1) ← local_of_atomic src m;
      mret (World m1 (<[s:=src']> ss) (hs ++ [h]) hi tk)
  | RecycledHandle a =>
      from_pool a m;;
      '(h, m1) ← local_recycled (Some a) m;
      mret (World m1 ss (hs ++ [h]) hi (tk ++ [a]))
  | DropHandle i =>
      h ← obj_at hs i;
      '(_, m1) ← local_dtor h m;
      mret (World m1 ss (delete i hs) hi tk)
  | AssignHandleObj i obj =>
      h ← obj_at hs i;
      '(h', m1) ← local_assign_obj h obj m;
      mret (World m1 ss (<[i:=h']> hs) hi tk)
  | AssignHandleHandle i j =>
      h ← obj_at hs i;
      src ← obj_at hs j;
      '(h', m1) ← local_assign_local h src m;
      mret (World m1 ss (<[i:=h']> hs) hi tk)
  | AssignHandleSlot i s =>
      h ← obj_at hs i;
      src ← obj_at ss s;
      '((h', src'), m1) ← local_assign_atomic h src m;
      mret (World m1 (<[s:=src']> ss) (<[i:=h']> hs) hi tk)
  | HandleRecycle i a =>
      h ← obj_at hs i;
      from_pool a m;;
      '(h', m1) ← recycle h (Some a) m;
      mret (World m1 ss (<[i:=h']> hs) hi (tk ++ [a]))
  | SetPool i p =>
      h ← obj_at hs i;
      '(_, m1) ← setPool h p m;
      mret (World m1 ss hs (note_pool h p hi) tk)
  | NewSlot obj =>
      '(sl, m1) ← atomic_of_obj obj m;
      mret (World m1 (ss ++ [sl]) hs hi tk)
  | SlotOfHandle i =>
      src ← obj_at hs i;
      '(sl, m1) ← atomic_of_local src m;
      mret (World m1 (ss ++ [sl]) hs hi tk)
  | CopySlot s =>
      src ← obj_at ss s;
      '((sl, src'), m1) ← atomic_copy src m;
      mret (World m1 (<[s:=src']> ss ++ [sl]) hs hi tk)
  | RecycledSlot a =>
      from_pool a m;;
      '(sl, m1) ← atomic_recycled (Some a) m;
      mret (World m1 (ss ++ [sl]) hs hi (tk ++ [a]))
  | DropSlot s =>
      sl ← obj_at ss s;
      '(_, m1) ← atomic_dtor sl m;
      mret (World m1 (delete s ss) hs hi tk)
  | AssignSlotObj s obj =>
      sl ← obj_at ss s;
      '(sl', m1) ← atomic_assign_obj sl obj m;
      mret (World m1 (<[s:=sl']> ss) hs hi tk)
  | AssignSlotHandle s i =>
      sl ← obj_at ss s;
      src ← obj_at hs i;
      '(sl', m1) ← atomic_assign_local sl src m;
      mret (World m1 (<[s:=sl']> ss) hs hi tk)
  | AssignSlotSlot s t =>
      src ← obj_at ss t;
      '((temp, src'), m1) ← atomic_copy src m;
      let ss1 := <[t:=src']> ss in
      sl ← obj_at ss1 s;
      '(sl', temp') ← swap sl temp;
      '(_, m2) ← atomic_dtor temp' m1;
      mret (World m2 (<[s:=sl']> ss1) hs hi tk)
  | SlotRecyle s a =>
      sl ← obj_at ss s;
      from_pool a m;;
      '(sl', m1) ← recyle sl (Some a) m;
      mret (World m1 (<[s:=sl']> ss) hs hi (tk ++ [a]))
  | Arrow s =>
      sl ← obj_at ss s;
      '((_, sl'), m1) ← atomic_arrow sl m;
      mret (World m1 (<[s:=sl']> ss) hs hi tk)
  | EqSlotHandle s i =>
      sl ← obj_at ss s;
      rhd ← obj_at hs i;
      '((_, sl'), m1) ← atomic_eq_local sl rhd m;
      mret (World m1 (<[s:=sl']> ss) hs hi tk)
  | Swap s t =>
      sl ← obj_at ss s;
      other ← obj_at ss t;
      '(sl', other') ← swap sl other;
      mret (World m (<[t:=other']> (<[s:=sl']> ss)) hs hi tk)
  | Cas s i d =>
      expected ← obj_at hs i;
      desired ← obj_at ss d;
      '(cmp, m1) ← local_copy expected m;
      '((xchg, desired'), m2) ← atomic_copy desired m1;
      let ss1 := <[d:=desired']> ss in
      sl ← obj_at ss1 s;
      '(_, sl', xchg') ← cas sl cmp xchg;
      '(_, m3) ← atomic_dtor xchg' m2;
      '(_, m4) ← local_dtor cmp m3;
      mret (World m4 (<[s:=sl']> ss1) hs hi tk)
  end.

Fixpoint run (ops : list op) (w : world) : result world :=
  match ops with
  | [] => inr w
  | o :: ops' => w' ← step o w; run ops' w'
  end.

Definition empty_machine : machine := Machine ∅ 1%positive [].
Definition empty_world : world := World empty_machine [] [] [] [].

(** ** Accounting *)

Definition sumZ {A} (f : A → Z) (l : list A) : Z := foldr (λ x acc, f x + acc) 0 l.

(** What one handle or one slot contributes to the block at [a]. *)
Definition oneH (h : local_ptr) (a : addr) : Z :=
  if decide (refptr h = Some a) then 1 else 0.
Definition oneS (s : atomic_ptr) (a : addr) : Z :=
  if decide (ref_ptr (xxx s) = Some a) then 1 else 0.
Definition ephOne (s : atomic_ptr) (a : addr) : Z :=
  if decide (ref_ptr (xxx s) = Some a) then ref_ecount (xxx s) else 0.

(** Handles on [a], slots holding [a], and the ephemeral counts those
    slots have not handed back yet. *)
Definition cntH (hs : list local_ptr) (a : addr) : Z := sumZ (λ h, oneH h a) hs.
Definition cntS (ss : list atomic_ptr) (a : addr) : Z := sumZ (λ s, oneS s a) ss.
Definition ephS (ss : list atomic_ptr) (a : addr) : Z := sumZ (λ s, ephOne s a) ss.

(** How often the storage of block [a] was released. *)
Definition frees (a : addr) (l : list event) : Z :=
  sumZ (λ e, if decide (e = EvFree a) then 1 else 0) l.

(** The hook most recently stored on block [a], null when none was. *)
Definition last_set (a : addr) (l : list (addr * pool_put_t)) : pool_put_t :=
  foldl (λ acc ap, if decide (ap.1 = a) then ap.2 else acc) None l.

(** How often a pool hook was called with block [a]. *)
Definition hook_calls (a : addr) (l : list event) : Z :=
  sumZ (λ e, match e with
             | EvPool _ a' => if decide (a' = a) then 1 else 0
             | _ => 0
             end) l.

Definition count_of (a : addr) (l : list addr) : Z :=
  sumZ (λ x, if decide (x = a) then 1 else 0) l.

(** A free store with two blocks: block 1 held by one slot, block 2 by
    one handle. *)
Definition sample_two : machine :=
  Machine (<[2%positive:=Block (Refcount 1 0) (Some 8%positive) None None]>
             {[ 1%positive := Block (Refcount 0 1) (Some 9%positive) None None ]})
          3%positive [].

(** A client holding the block of [sample_owned] in one slot that has
    one pin outstanding. *)
Definition sample_world : world :=
  World (Machine {[ 1%positive := Block (Refcount 0 1) (Some 9%positive) None None ]}
           2%positive [])
        [Atomic (Ref 1 (Some 1%positive))] [Local (Some 1%positive)] [] [].

(** The balance of a free store against its owners: [cS a] slots hold
    [a], they carry [eS a] ephemeral counts between them, [cH a] handles
    reference [a], [pl a] is the hook block [a] should carry and [ri a]
    the number of times [a] was taken back out of a pool. *)
Record balanced (m : machine) (cS eS cH : addr → Z) (pl : addr → pool_put_t)
    (ri : addr → Z) : Prop := {
  bal_live : ∀ a b, heap m !! a = Some b →
    rcount (count b) = cS a ∧ ecount (count b) + eS a = cH a ∧
    pool b = pl a ∧ (count b = Refcount 0 0 → pool b ≠ None) ∧
    (a < brk m)%positive ∧ frees a (log m) = 0 ∧
    hook_calls a (log m) = ri a + (if decide (count b = Refcount 0 0) then 1 else 0);
  bal_gone : ∀ a, heap m !! a = None →
    cS a = 0 ∧ eS a = 0 ∧ cH a = 0 ∧
    frees a (log m) = (if decide (a < brk m)%positive then 1 else 0) ∧
    hook_calls a (log m) = ri a ∧
    ((brk m ≤ a)%positive → pl a = None ∧ ri a = 0)
}.

(** Owner counts are counts: none is negative, and slots that do not hold
    a block carry no ephemeral counts for it. *)
Definition counts_ok (cS eS cH : addr → Z) : Prop :=
  ∀ a, 0 ≤ cS a ∧ 0 ≤ cH a ∧ (cS a = 0 → eS a = 0).

Definition inv (w : world) : Prop :=
  balanced (mach w) (cntS (slots w)) (ephS (slots w)) (cntH (handles w))
    (λ a, last_set a (hist w)) (λ a, count_of a (taken w)).

(** The faults a client can provoke; [Dangling] and [FuelExhausted] are
    not among them. *)
Definition benign (f : fault) : Prop :=
  f = SignedOverflow ∨ f = NullDeref ∨ f = NoSuchObject ∨ f = NotPooled.

(** Outcome predicate: a result satisfies [Q], or the run stopped at a
    benign fault. *)
Definition post {A} (r : result A) (Q : A → Prop) : Prop :=
  match r with
  | inr x => Q x
  | inl f => benign f
  end.

(** The sums [adjust] forms from a count value stay inside [long]. *)
Definition fits (xe xr : Z) (c : refcount) : Prop :=
  in_long (ecount c + xe) ∧ in_long (rcount c + xr).

(** The value the shared cell holds at the [k]-th CAS attempt of a loop. *)
Fixpoint cell_at {A} (cell : A) (env : list A) (k : nat) : A :=
  match k with
  | O => cell
  | S k' => cell_at (hd cell env) (tail env) k'
  end.

(** The free store with the block at [a] overwritten. *)
Definition upd (a : addr) (b : atomic_ptr_ref) (m : machine) : machine :=
  Machine (<[a:=b]> (heap m)) (brk m) (log m).

(** [m'] differs from [m] only in what concerns the block at [a]: no
    allocation happened, and every other block and its events are as
    they were. *)
Definition only_at (a : addr) (m m' : machine) : Prop :=
  brk m' = brk m ∧
  ∀ a', a' ≠ a →
    heap m' !! a' = heap m !! a' ∧
    frees a' (log m') = frees a' (log m) ∧
    hook_calls a' (log m') = hook_calls a' (log m).

(** [m'] is a later free store than [m]: the allocation mark only moves
    up, events are only appended, and a block of [m'] that was allocated
    before the mark of [m] is a block of [m] with the same payload. *)
Definition extends (m m' : machine) : Prop :=
  (brk m ≤ brk m')%positive ∧
  (∃ l, log m' = log m ++ l) ∧
  ∀ a b', heap m' !! a = Some b' → (a < brk m)%positive →
    ∃ b, heap m !! a = Some b ∧ ptr b = ptr b'.

(** A computation that only ever leads to later free stores. *)
Definition stable {A} (c : M A) : Prop :=
  ∀ m x m', c m = inr (x, m') → extends m m'.

(** ** Destroy-or-recycle, as the specification words it *)

(** "If [pool_hook] is null, destruct the payload and free the block; else
    invoke [pool_hook(block)]": the free store after that has been done,
    once, to the block at [a] whose contents are [b]. *)
Definition spec_destroy_or_recycle (a : addr) (b : atomic_ptr_ref) (m : machine) : machine :=
  match pool b with
  | None =>
      Machine (delete a (heap m)) (brk m)
        (log m ++ match ptr b with Some p => [EvDelete p] | None => [] end ++ [EvFree a])
  | Some f =>
      Machine (<[a:=b]> (heap m)) (brk m) (log m ++ [EvPool f a])
  end.

(** ** Sample states *)

(** A free store whose only block sits in a pool: counts (0, 0), hook 4. *)
Definition sample_pooled : machine :=
  Machine {[ 1%positive := Block (Refcount 0 0) (Some 9%positive) (Some 4%positive) None ]}
          2%positive [EvPool 4%positive 1%positive].

(** A free store with one block owned by one slot: counts (0, 1). *)
Definition sample_owned : machine :=
  Machine {[ 1%positive := Block (Refcount 0 1) (Some 9%positive) None None ]}
          2%positive [].

(** * Properties *)

(** ** Arithmetic and the CAS primitive *)

Lemma add_long_inr x y : in_long (x + y) → add_long x y = inr (x + y).
Proof. intros H. unfold add_long. rewrite decide_True; auto. Qed.

Lemma add_long_overflow x y : ¬ in_long (x + y) → add_long x y = inl SignedOverflow.
Proof. intros H. unfold add_long. rewrite decide_False; auto. Qed.

Lemma add_long_cases x y :
  add_long x y = inr (x + y) ∨ add_long x y = inl SignedOverflow.
Proof. unfold add_long. case_decide; auto. Qed.

Lemma atomic_cas_hit {A} `{EqDecision A} (c new : A) :
  atomic_cas c c new = (true, new, c).
Proof. unfold atomic_cas. rewrite decide_True; auto. Qed.

Lemma atomic_cas_miss {A} `{EqDecision A} (c old new : A) :
  c ≠ old → atomic_cas c old new = (false, c, c).
Proof. intros. unfold atomic_cas. rewrite decide_False; auto. Qed.

Lemma hd_tail_subseteq {A} (c : A) (env : list A) x :
  x ∈ hd c env :: tail env → x ∈ c :: env.
Proof. destruct env; simpl; set_solver. Qed.

(** ** adjust *)

Lemma adjust_loop_lin fuel : ∀ env cnt oldval xe xr,
  (cnt = oldval ∧ 1 ≤ fuel)%nat ∨ (length env + 2 ≤ fuel)%nat →
  Forall (fits xe xr) (oldval :: cnt :: env) →
  ∃ lin, lin ∈ cnt :: env ∧
    adjust_loop fuel env cnt oldval xe xr =
      inr (if decide (ecount lin + xe = 0 ∧ rcount lin + xr = 0) then 0 else 1,
           Refcount (ecount lin + xe) (rcount lin + xr)).
Proof.
  induction fuel as [|fuel IH]; intros env cnt oldval xe xr Hfuel Hfit.
  { destruct Hfuel as [[_ ?]|?]; lia. }
  pose proof Hfit as Hfit0.
  apply Forall_cons in Hfit as [[Ho1 Ho2] Hfit].
  cbn [adjust_loop]. rewrite (add_long_inr _ _ Ho1), (add_long_inr _ _ Ho2). simpl.
  destruct (decide (cnt = oldval)) as [->|Hne].
  - rewrite atomic_cas_hit. exists oldval. split; [set_solver|done].
  - rewrite atomic_cas_miss by done.
    destruct (IH (tail env) (hd cnt env) cnt xe xr) as (lin & Hin & Heq).
    + destruct Hfuel as [[? _]|Hf]; [done|].
      destruct env as [|c env]; simpl in *; [left; split; [done|lia] | right; lia].
    + apply Forall_cons. split; [by apply Forall_cons in Hfit as [? _]|].
      apply Forall_forall. intros x Hx. apply hd_tail_subseteq in Hx.
      rewrite Forall_forall in Hfit. by apply Hfit.
    + exists lin. split; [by apply hd_tail_subseteq|done].
Qed.

(** C2 (as amended). Whatever other threads store into [count] between the
    attempts, once they stop [adjust] returns; the value it leaves is some
    value [lin] the cell held at a CAS attempt plus ([xe], [xr]), put there
    by that one CAS; and the [int] returned is 0 exactly when the new pair
    is (0, 0), and 1 otherwise. *)
Theorem adjust_adds_and_returns_zero_at_zero fuel env cnt oldval xe xr :
  (length env + 2 ≤ fuel)%nat →
  Forall (fits xe xr) (oldval :: cnt :: env) →
  ∃ lin rc,
    lin ∈ cnt :: env ∧
    adjust_loop fuel env cnt oldval xe xr =
      inr (rc, Refcount (ecount lin + xe) (rcount lin + xr)) ∧
    (rc = 0 ↔ Refcount (ecount lin + xe) (rcount lin + xr) = Refcount 0 0) ∧
    (rc = 0 ∨ rc = 1).
Proof.
  intros Hfuel Hfit.
  destruct (adjust_loop_lin fuel env cnt oldval xe xr) as (lin & Hin & Heq); auto.
  exists lin. eexists. split; [done|]. split; [exact Heq|].
  case_decide as Hz.
  - split; [|by left]. split; [|done]. intros _. destruct Hz as [-> ->]. done.
  - split; [|by right]. split; [done|]. intros [= ? ?]. tauto.
Qed.

Lemma adjust_adds_and_returns_zero_at_zero_witness :
  ∃ lin rc,
    lin ∈ [Refcount 1 1; Refcount 0 1] ∧
    adjust_loop 3 [Refcount 0 1] (Refcount 1 1) (Refcount 2 1) 0 (-1) =
      inr (rc, Refcount (ecount lin + 0) (rcount lin + -1)) ∧
    (rc = 0 ↔ Refcount (ecount lin + 0) (rcount lin + -1) = Refcount 0 0) ∧
    (rc = 0 ∨ rc = 1).
Proof.
  apply (adjust_adds_and_returns_zero_at_zero 3 [Refcount 0 1] (Refcount 1 1)
           (Refcount 2 1) 0 (-1)).
  - simpl. lia.
  - repeat constructor; vm_compute; discriminate.
Defined.

(** C2 (as stated) fails: dropping the last reference of a block with
    counts (0, 1) makes the pair (0, 0), and [adjust] returns the [int] 0,
    which is false as a condition. *)
Lemma adjust_returns_false_at_zero :
  ¬ (∀ rc c, adjust (Refcount 0 1) 0 (-1) = inr (rc, c) →
       (int_true rc = true ↔ c = Refcount 0 0)).
Proof.
  intros H. specialize (H 0 (Refcount 0 0) eq_refl).
  destruct H as [_ H]. specialize (H eq_refl). discriminate.
Qed.

(** [adjust] without interference is one addition. *)
Lemma adjust_seq cnt xe xr :
  fits xe xr cnt →
  adjust cnt xe xr =
    inr (if decide (ecount cnt + xe = 0 ∧ rcount cnt + xr = 0) then 0 else 1,
         Refcount (ecount cnt + xe) (rcount cnt + xr)).
Proof.
  intros [H1 H2]. unfold adjust. cbn [adjust_loop].
  rewrite (add_long_inr _ _ H1), (add_long_inr _ _ H2). simpl.
  by rewrite atomic_cas_hit.
Qed.

Lemma adjust_seq_cases cnt xe xr :
  adjust cnt xe xr = inl SignedOverflow ∨
  adjust cnt xe xr =
    inr (if decide (ecount cnt + xe = 0 ∧ rcount cnt + xr = 0) then 0 else 1,
         Refcount (ecount cnt + xe) (rcount cnt + xr)).
Proof.
  destruct (decide (in_long (ecount cnt + xe))) as [H1|H1];
    [destruct (decide (in_long (rcount cnt + xr))) as [H2|H2]|].
  - right. by apply adjust_seq.
  - left. unfold adjust. cbn [adjust_loop].
    rewrite (add_long_inr _ _ H1), (add_long_overflow _ _ H2). reflexivity.
  - left. unfold adjust. cbn [adjust_loop].
    rewrite (add_long_overflow _ _ H1). reflexivity.
Qed.

(** ** The free store: how the primitives run *)

Lemma bind_inr {A B} (c : M A) (f : A → M B) m x m' :
  c m = inr (x, m') → (c ≫= f) m = f x m'.
Proof. intros H. unfold mbind, M_bind. by rewrite H. Qed.

Lemma bind_inl {A B} (c : M A) (f : A → M B) m e :
  c m = inl e → (c ≫= f) m = inl e.
Proof. intros H. unfold mbind, M_bind. by rewrite H. Qed.

Lemma load_some m a b : heap m !! a = Some b → load a m = inr (b, m).
Proof. intros H. unfold load. by rewrite H. Qed.

Lemma load_none m a : heap m !! a = None → load a m = inl Dangling.
Proof. intros H. unfold load. by rewrite H. Qed.

Lemma store_some m a b b' : heap m !! a = Some b → store a b' m = inr (tt, upd a b' m).
Proof. intros H. unfold store. by rewrite H. Qed.

Lemma adjust_at_ok m a b xe xr :
  heap m !! a = Some b → fits xe xr (count b) →
  adjust_at a xe xr m =
    inr (if decide (ecount (count b) + xe = 0 ∧ rcount (count b) + xr = 0) then 0 else 1,
         upd a (set_count (Refcount (ecount (count b) + xe) (rcount (count b) + xr)) b) m).
Proof.
  intros Hb Hfit. unfold adjust_at.
  rewrite (bind_inr _ _ _ _ _ (load_some _ _ _ Hb)).
  unfold mbind at 1, M_bind, lift. rewrite (adjust_seq _ _ _ Hfit).
  rewrite (bind_inr _ _ _ _ _ (store_some _ _ _ _ Hb)). done.
Qed.

Lemma adjust_at_overflow m a b xe xr :
  heap m !! a = Some b → ¬ fits xe xr (count b) →
  adjust_at a xe xr m = inl SignedOverflow.
Proof.
  intros Hb Hfit. unfold adjust_at.
  rewrite (bind_inr _ _ _ _ _ (load_some _ _ _ Hb)).
  unfold mbind at 1, M_bind, lift.
  destruct (adjust_seq_cases (count b) xe xr) as [->| Heq]; [done|].
  exfalso. apply Hfit. unfold fits.
  unfold adjust in Heq. cbn [adjust_loop] in Heq. unfold add_long in Heq.
  repeat case_decide; try done; simplify_eq/=.
Qed.

Lemma adjust_at_none m a xe xr :
  heap m !! a = None → adjust_at a xe xr m = inl Dangling.
Proof. intros H. unfold adjust_at. by rewrite (bind_inl _ _ _ _ (load_none _ _ H)). Qed.

Lemma destroy_or_recycle_delete m a b :
  heap m !! a = Some b → pool b = None →
  destroy_or_recycle a m =
    inr (tt, Machine (delete a (heap m)) (brk m)
               (log m ++ match ptr b with Some p => [EvDelete p] | None => [] end
                      ++ [EvFree a])).
Proof.
  intros Hb Hp. unfold destroy_or_recycle.
  rewrite (bind_inr _ _ _ _ _ (load_some _ _ _ Hb)), Hp.
  unfold delete_atomic_ptr_ref.
  rewrite (bind_inr _ _ _ _ _ (load_some _ _ _ Hb)).
  destruct (ptr b) as [p|]; unfold mbind, M_bind, emit, release_storage; simpl.
  - by rewrite <- app_assoc.
  - done.
Qed.

Lemma destroy_or_recycle_pool m a b f :
  heap m !! a = Some b → pool b = Some f →
  destroy_or_recycle a m =
    inr (tt, Machine (heap m) (brk m) (log m ++ [EvPool f a])).
Proof.
  intros Hb Hp. unfold destroy_or_recycle.
  by rewrite (bind_inr _ _ _ _ _ (load_some _ _ _ Hb)), Hp.
Qed.

Lemma upd_lookup m a b : heap (upd a b m) !! a = Some b.
Proof. unfold upd. simpl. apply lookup_insert_eq. Qed.

Lemma upd_upd m a b b' : upd a b' (upd a b m) = upd a b' m.
Proof. unfold upd. simpl. by rewrite insert_insert_eq. Qed.

Lemma upd_same m a b : heap m !! a = Some b → upd a b m = m.
Proof. intros H. unfold upd. rewrite insert_id by done. by destruct m. Qed.

(** ** Construction *)

Lemma local_of_obj_run m p :
  local_of_obj (Some p) m =
    inr (Local (Some (brk m)),
         Machine (<[brk m:=Block (Refcount 1 0) (Some p) None None]> (heap m))
                 (Pos.succ (brk m)) (log m)).
Proof.
  unfold local_of_obj, new_atomic_ptr_ref, mbind, M_bind, load, store. simpl.
  repeat (rewrite lookup_insert_eq; simpl).
  unfold set_count; simpl. by rewrite insert_insert_eq.
Qed.

Lemma atomic_of_obj_run m p :
  atomic_of_obj (Some p) m =
    inr (Atomic (Ref 0 (Some (brk m))),
         Machine (<[brk m:=Block (Refcount 0 1) (Some p) None None]> (heap m))
                 (Pos.succ (brk m)) (log m)).
Proof. reflexivity. Qed.

Lemma local_recycled_run m a b :
  heap m !! a = Some b →
  local_recycled (Some a) m = inr (Local (Some a), upd a (set_count (Refcount 1 0) b) m).
Proof.
  intros Hb. unfold local_recycled.
  rewrite (bind_inr _ _ _ _ _ (load_some _ _ _ Hb)).
  by rewrite (bind_inr _ _ _ _ _ (store_some _ _ _ _ Hb)).
Qed.

Lemma atomic_recycled_run m a b :
  heap m !! a = Some b →
  atomic_recycled (Some a) m =
    inr (Atomic (Ref 0 (Some a)), upd a (set_count (Refcount 0 1) b) m).
Proof.
  intros Hb. unfold atomic_recycled.
  rewrite (bind_inr _ _ _ _ _ (load_some _ _ _ Hb)).
  by rewrite (bind_inr _ _ _ _ _ (store_some _ _ _ _ Hb)).
Qed.



(** ** swap and cas *)

Lemma swap_seq this obj : swap this obj = inr (Atomic (xxx obj), Atomic (xxx this)).
Proof.
  destruct this as [[e p]], obj as [o]. unfold swap. cbn [swap_loop xxx ref_ecount ref_ptr].
  by rewrite atomic_cas_hit.
Qed.

Lemma cell_at_succ {A} (cell : A) env k :
  cell_at cell env (S k) = cell_at (hd cell env) (tail env) k.
Proof. reflexivity. Qed.

Lemma cas_loop_lin fuel : ∀ env cell temp cmp xchg,
  ref_ptr temp = cmp →
  ((cell = temp ∨ ref_ptr cell ≠ cmp) ∧ 1 ≤ fuel)%nat ∨ (length env + 2 ≤ fuel)%nat →
  ∃ k,
    (∀ j, (j < k)%nat → ref_ptr (cell_at cell env j) = cmp) ∧
    cas_loop fuel env cell temp cmp xchg =
      inr (if decide (ref_ptr (cell_at cell env k) = cmp)
           then (true, xchg, cell_at cell env k)
           else (false, cell_at cell env k, xchg)).
Proof.
  induction fuel as [|fuel IH]; intros env cell temp cmp xchg Htemp Hfuel.
  { destruct Hfuel as [[_ ?]|?]; lia. }
  cbn [cas_loop]. destruct (decide (cell = temp)) as [->|Hne].
  - rewrite atomic_cas_hit. exists 0%nat. split; [intros; lia|].
    simpl. rewrite decide_True; auto.
  - rewrite atomic_cas_miss by done.
    destruct (decide (cmp = ref_ptr cell)) as [Hp|Hp].
    + destruct (IH (tail env) (hd cell env) cell cmp xchg) as (k & Hk & Heq); [done| |].
      * destruct Hfuel as [[[?|?] _]|Hf]; [done|done|].
        destruct env as [|c env]; simpl in *; [left|right]; auto with lia.
      * exists (S k). split; [|by rewrite cell_at_succ].
        intros [|j] Hj; [done|]. rewrite cell_at_succ. apply Hk. lia.
    + exists 0%nat. split; [intros; lia|].
      simpl. rewrite decide_False; auto.
Qed.

(** C3. Whatever other threads do to the slot, once they stop the body of
    [cas] returns. Its last CAS attempt, the [k]-th, is the linearization
    point: with [lin] the pair the slot held there, the call returns true
    iff the block pointer of [lin] is [cmp]'s, whatever the ephemeral count of
    [lin]; on success the slot receives [xchg]'s pair and [xchg] receives
    [lin]; on failure the slot keeps [lin] and [xchg] is as it was; and
    every earlier attempt saw the expected block pointer, which is why
    the loop went on. *)
Theorem cas_succeeds_iff_block_matches fuel env seen cell cmp xchg :
  (length env + 2 ≤ fuel)%nat →
  ∃ k rc slot' xchg',
    cas_run fuel env seen cell cmp xchg = inr (rc, slot', xchg') ∧
    (rc = true ↔ ref_ptr (cell_at cell env k) = refptr cmp) ∧
    (rc = true → slot' = xxx xchg ∧ xchg' = cell_at cell env k) ∧
    (rc = false → slot' = cell_at cell env k ∧ xchg' = xxx xchg) ∧
    (∀ j, (j < k)%nat → ref_ptr (cell_at cell env j) = refptr cmp).
Proof.
  intros Hfuel. unfold cas_run.
  destruct (cas_loop_lin fuel env cell (Ref (ref_ecount seen) (refptr cmp)) (refptr cmp)
              (xxx xchg) eq_refl (or_intror Hfuel)) as (k & Hk & Heq).
  exists k. case_decide as Hd.
  - exists true, (xxx xchg), (cell_at cell env k). repeat split; auto; discriminate.
  - exists false, (cell_at cell env k), (xxx xchg).
    repeat split; auto; try discriminate; try (intros; contradiction).
Qed.

Lemma cas_succeeds_iff_block_matches_witness :
  (length [Ref 2 (Some 1%positive)] + 2 ≤ 3)%nat ∧
  ∃ k rc slot' xchg',
    cas_run 3 [Ref 2 (Some 1%positive)] (Ref 0 (Some 1%positive)) (Ref 1 (Some 1%positive))
      (Local (Some 1%positive)) (Atomic (Ref 0 (Some 2%positive))) = inr (rc, slot', xchg') ∧
    (rc = true ↔ ref_ptr (cell_at (Ref 1 (Some 1%positive)) [Ref 2 (Some 1%positive)] k)
                 = refptr (Local (Some 1%positive))) ∧
    (rc = true → slot' = xxx (Atomic (Ref 0 (Some 2%positive))) ∧
                 xchg' = cell_at (Ref 1 (Some 1%positive)) [Ref 2 (Some 1%positive)] k) ∧
    (rc = false → slot' = cell_at (Ref 1 (Some 1%positive)) [Ref 2 (Some 1%positive)] k ∧
                  xchg' = xxx (Atomic (Ref 0 (Some 2%positive)))) ∧
    (∀ j, (j < k)%nat →
       ref_ptr (cell_at (Ref 1 (Some 1%positive)) [Ref 2 (Some 1%positive)] j)
       = refptr (Local (Some 1%positive))).
Proof.
  split; [simpl; lia|].
  apply (cas_succeeds_iff_block_matches 3 [Ref 2 (Some 1%positive)] (Ref 0 (Some 1%positive))
           (Ref 1 (Some 1%positive)) (Local (Some 1%positive)) (Atomic (Ref 0 (Some 2%positive)))).
  simpl; lia.
Defined.

Lemma cas_seq this cmp xchg :
  cas this cmp xchg =
    inr (if decide (ref_ptr (xxx this) = refptr cmp)
         then (true, Atomic (xxx xchg), this)
         else (false, this, xchg)).
Proof.
  destruct this as [[e p]], cmp as [c], xchg as [x].
  unfold cas, cas_run. cbn [cas_loop xxx ref_ecount ref_ptr refptr].
  unfold atomic_cas. destruct (decide (p = c)) as [->|Hne].
  - rewrite decide_True by done. done.
  - rewrite decide_False by congruence. simpl.
    rewrite decide_False by congruence. done.
Qed.

(** ** Release *)

Lemma sumZ_app {A} (f : A → Z) l1 l2 : sumZ f (l1 ++ l2) = sumZ f l1 + sumZ f l2.
Proof. induction l1 as [|x l1 IH]; simpl; [done|]. rewrite IH. lia. Qed.

Lemma destroy_or_recycle_spec m a b :
  heap m !! a = Some b →
  destroy_or_recycle a m = inr (tt, spec_destroy_or_recycle a b m).
Proof.
  intros Hb. unfold spec_destroy_or_recycle. destruct (pool b) as [f|] eqn:Hp.
  - rewrite (destroy_or_recycle_pool m a b f Hb Hp). by rewrite insert_id.
  - by rewrite (destroy_or_recycle_delete m a b Hb Hp).
Qed.

Lemma spec_destroy_or_recycle_upd a b b' m :
  spec_destroy_or_recycle a b (upd a b m) = spec_destroy_or_recycle a b (upd a b' m).
Proof.
  unfold spec_destroy_or_recycle, upd. simpl. destruct (pool b).
  - by rewrite !insert_insert_eq.
  - by rewrite !delete_insert_eq.
Qed.

Lemma spec_destroy_or_recycle_once a b m :
  frees a (log (spec_destroy_or_recycle a b m)) + hook_calls a (log (spec_destroy_or_recycle a b m))
  = frees a (log m) + hook_calls a (log m) + 1.
Proof.
  unfold spec_destroy_or_recycle, frees, hook_calls.
  destruct (pool b); simpl; rewrite !sumZ_app; simpl.
  - rewrite decide_True by done. lia.
  - destruct (ptr b); simpl; rewrite ?decide_True by done; lia.
Qed.

Lemma local_dtor_run m a b :
  heap m !! a = Some b → fits (-1) 0 (count b) →
  local_dtor (Local (Some a)) m =
    let b' := set_count (Refcount (ecount (count b) - 1) (rcount (count b))) b in
    if decide (count b = Refcount 1 0)
    then inr (tt, spec_destroy_or_recycle a b' (upd a b' m))
    else inr (tt, upd a b' m).
Proof.
  intros Hb Hfit. unfold local_dtor. cbn [refptr].
  rewrite (bind_inr _ _ _ _ _ (adjust_at_ok _ _ _ _ _ Hb Hfit)).
  replace (ecount (count b) + -1) with (ecount (count b) - 1) by lia.
  replace (rcount (count b) + 0) with (rcount (count b)) by lia.
  simpl. destruct (count b) as [e r] eqn:Hc. simpl.
  destruct (decide (e - 1 = 0 ∧ r = 0)) as [[He Hr]|Hnz].
  - rewrite (decide_True (P := 0 = 0)) by done.
    rewrite decide_True by (f_equal; lia).
    apply destroy_or_recycle_spec. apply upd_lookup.
  - rewrite (decide_False (P := 1 = 0)) by done.
    rewrite decide_False by (intros [= ? ?]; lia). done.
Qed.

Lemma atomic_dtor_run m a b e :
  heap m !! a = Some b → fits e (-1) (count b) →
  atomic_dtor (Atomic (Ref e (Some a))) m =
    let b' := set_count (Refcount (ecount (count b) + e) (rcount (count b) - 1)) b in
    if decide (ecount (count b) + e = 0 ∧ rcount (count b) = 1)
    then inr (tt, spec_destroy_or_recycle a b' (upd a b' m))
    else inr (tt, upd a b' m).
Proof.
  intros Hb Hfit. unfold atomic_dtor. cbn [xxx ref_ptr ref_ecount].
  rewrite (bind_inr _ _ _ _ _ (adjust_at_ok _ _ _ _ _ Hb Hfit)).
  replace (rcount (count b) + -1) with (rcount (count b) - 1) by lia.
  simpl.
  destruct (decide (ecount (count b) + e = 0 ∧ rcount (count b) - 1 = 0)) as [[He Hr]|Hnz].
  - rewrite (decide_True (P := 0 = 0)) by done.
    rewrite decide_True by lia.
    apply destroy_or_recycle_spec. apply upd_lookup.
  - rewrite (decide_False (P := 1 = 0)) by done.
    rewrite decide_False by lia. done.
Qed.

(** C5. When the release of a handle or of a slot takes the counts of its
    block to (0, 0), the releasing call itself, before it returns, runs
    destroy-or-recycle on that block once: with a null hook the payload is
    destructed and the block freed; with a hook the hook is called with the
    block, which stays allocated with its payload untouched. Either way
    the number of free and hook events for the block grows by exactly one. *)
Theorem release_at_zero_destroys_or_recycles m a b e :
  heap m !! a = Some b →
  let zero := set_count (Refcount 0 0) b in
  (count b = Refcount 1 0 →
     local_dtor (Local (Some a)) m = inr (tt, spec_destroy_or_recycle a zero m)) ∧
  (ecount (count b) + e = 0 → rcount (count b) = 1 →
     atomic_dtor (Atomic (Ref e (Some a))) m = inr (tt, spec_destroy_or_recycle a zero m)) ∧
  frees a (log (spec_destroy_or_recycle a zero m))
    + hook_calls a (log (spec_destroy_or_recycle a zero m))
    = frees a (log m) + hook_calls a (log m) + 1 ∧
  match pool b with
  | None =>
      heap (spec_destroy_or_recycle a zero m) = delete a (heap m) ∧
      log (spec_destroy_or_recycle a zero m) =
        log m ++ match ptr b with Some p => [EvDelete p] | None => [] end ++ [EvFree a]
  | Some f =>
      heap (spec_destroy_or_recycle a zero m) = <[a:=zero]> (heap m) ∧
      ptr zero = ptr b ∧
      log (spec_destroy_or_recycle a zero m) = log m ++ [EvPool f a]
  end.
Proof.
  intros Hb zero. split; [|split; [|split]].
  - intros Hc. rewrite (local_dtor_run m a b Hb).
    + simpl. rewrite decide_True by done. rewrite Hc. simpl.
      fold zero. rewrite (spec_destroy_or_recycle_upd a zero b).
      by rewrite (upd_same m a b).
    + rewrite Hc. split; vm_compute; split; discriminate.
  - intros He Hr. rewrite (atomic_dtor_run m a b e Hb).
    + simpl. rewrite decide_True by done. rewrite He, Hr. simpl.
      fold zero. rewrite (spec_destroy_or_recycle_upd a zero b).
      by rewrite (upd_same m a b).
    + split; [rewrite He|rewrite Hr]; vm_compute; split; discriminate.
  - apply spec_destroy_or_recycle_once.
  - unfold spec_destroy_or_recycle. simpl. by destruct (pool b).
Qed.

Lemma release_at_zero_destroys_or_recycles_witness :
  heap sample_owned !! 1%positive = Some (Block (Refcount 0 1) (Some 9%positive) None None) ∧
  atomic_dtor (Atomic (Ref 0 (Some 1%positive))) sample_owned =
    inr (tt, spec_destroy_or_recycle 1%positive
               (set_count (Refcount 0 0) (Block (Refcount 0 1) (Some 9%positive) None None))
               sample_owned).
Proof.
  split; [reflexivity|].
  exact (proj1 (proj2 (release_at_zero_destroys_or_recycles sample_owned 1%positive
    (Block (Refcount 0 1) (Some 9%positive) None None) 0 eq_refl)) eq_refl eq_refl).
Defined.

(** ** Dereference *)

(** C7 (as stated) fails: [get] and [operator ->] on an empty handle return
    the null payload pointer and raise nothing. *)
Lemma get_of_empty_handle_is_silent :
  ¬ (∀ m, ∃ f, get (Local None) m = inl f) ∧
  get (Local None) empty_machine = inr (None, empty_machine) ∧
  local_arrow (Local None) empty_machine = inr (None, empty_machine).
Proof.
  split; [|done]. intros H. destruct (H empty_machine) as [f Hf]. discriminate.
Qed.

(** C7 (as amended). On an empty handle [get] and [operator ->] return the
    null payload pointer without any failure, and [operator *] then
    dereferences that null pointer; on a handle whose block is allocated
    all three yield the payload of that block. *)
Theorem dereference_yields_payload_or_null m this :
  match refptr this with
  | None =>
      get this m = inr (None, m) ∧
      local_arrow this m = inr (None, m) ∧
      local_star this m = inl NullDeref
  | Some a =>
      match heap m !! a with
      | Some b =>
          get this m = inr (ptr b, m) ∧
          local_arrow this m = inr (ptr b, m) ∧
          local_star this m =
            match ptr b with Some o => inr (o, m) | None => inl NullDeref end
      | None =>
          get this m = inl Dangling ∧
          local_arrow this m = inl Dangling ∧
          local_star this m = inl Dangling
      end
  end.
Proof.
  destruct this as [[a|]]; cbn [refptr].
  - destruct (heap m !! a) as [b|] eqn:Hb.
    + assert (Hg : get (Local (Some a)) m = inr (ptr b, m)).
      { unfold get. cbn [refptr]. by rewrite (bind_inr _ _ _ _ _ (load_some _ _ _ Hb)). }
      split; [done|]. split; [done|].
      unfold local_star. rewrite (bind_inr _ _ _ _ _ Hg). by destruct (ptr b).
    + assert (Hg : get (Local (Some a)) m = inl Dangling).
      { unfold get. cbn [refptr]. by rewrite (bind_inl _ _ _ _ (load_none _ _ Hb)). }
      split; [done|]. split; [done|].
      unfold local_star. by rewrite (bind_inl _ _ _ _ Hg).
  - done.
Qed.

(** ** Pool control *)

Lemma pool_access_run m this p :
  match refptr this with
  | None => setPool this p m = inl NullDeref ∧ getPool this m = inl NullDeref
  | Some a =>
      match heap m !! a with
      | Some b =>
          setPool this p m = inr (tt, upd a (set_pool p b) m) ∧
          getPool this m = inr (pool b, m) ∧
          getPool this (upd a (set_pool p b) m) = inr (p, upd a (set_pool p b) m)
      | None => setPool this p m = inl Dangling ∧ getPool this m = inl Dangling
      end
  end.
Proof.
  destruct this as [[a|]]; cbn [refptr]; [|done].
  destruct (heap m !! a) as [b|] eqn:Hb.
  - unfold setPool, getPool. cbn [refptr].
    rewrite !(bind_inr _ _ _ _ _ (load_some _ _ _ Hb)).
    rewrite (store_some _ _ _ _ Hb).
    rewrite (bind_inr _ _ _ _ _ (load_some _ _ _ (upd_lookup m a (set_pool p b)))).
    done.
  - unfold setPool, getPool. cbn [refptr].
    by rewrite !(bind_inl _ _ _ _ (load_none _ _ Hb)).
Qed.

(** ** Pin *)

Lemma getrefptr_run this :
  in_long (ref_ecount (xxx this) + 1) →
  getrefptr this =
    inr (ref_ptr (xxx this), Atomic (Ref (ref_ecount (xxx this) + 1) (ref_ptr (xxx this)))).
Proof.
  intros H. destruct this as [[e p]]. unfold getrefptr. cbn [getrefptr_loop xxx ref_ecount ref_ptr] in *.
  rewrite (add_long_inr _ _ H). simpl. by rewrite atomic_cas_hit.
Qed.

Lemma getrefptr_overflow this :
  ¬ in_long (ref_ecount (xxx this) + 1) → getrefptr this = inl SignedOverflow.
Proof.
  intros H. destruct this as [[e p]]. unfold getrefptr. cbn [getrefptr_loop xxx ref_ecount ref_ptr] in *.
  by rewrite (add_long_overflow _ _ H).
Qed.

Lemma local_of_atomic_run m this :
  in_long (ref_ecount (xxx this) + 1) →
  local_of_atomic this m =
    inr ((Local (ref_ptr (xxx this)),
          Atomic (Ref (ref_ecount (xxx this) + 1) (ref_ptr (xxx this)))), m).
Proof.
  intros H. unfold local_of_atomic, mbind, M_bind, lift. by rewrite (getrefptr_run _ H).
Qed.

Lemma atomic_copy_run m this a b :
  in_long (ref_ecount (xxx this) + 1) →
  ref_ptr (xxx this) = Some a → heap m !! a = Some b → fits (-1) 1 (count b) →
  atomic_copy this m =
    inr ((Atomic (Ref 0 (Some a)), Atomic (Ref (ref_ecount (xxx this) + 1) (Some a))),
         upd a (set_count (Refcount (ecount (count b) - 1) (rcount (count b) + 1)) b) m).
Proof.
  intros H Hp Hb Hfit. unfold atomic_copy, mbind at 1, M_bind at 1, lift.
  rewrite (getrefptr_run _ H), Hp.
  rewrite (bind_inr _ _ _ _ _ (adjust_at_ok _ _ _ _ _ Hb Hfit)).
  by replace (ecount (count b) + -1) with (ecount (count b) - 1) by lia.
Qed.

(** C1 (as stated) fails: pinning a slot that holds a block with counts
    (0, 1) leaves the block at (0, 1), not at (-1, 2), and releasing the
    handle takes the ephemeral count, not the reference count, down. *)
Lemma pin_does_not_migrate :
  ¬ (∀ this m h this' m' a b,
       local_of_atomic this m = inr ((h, this'), m') →
       ref_ptr (xxx this) = Some a → heap m !! a = Some b →
       count <$> heap m' !! a
       = Some (Refcount (ecount (count b) - 1) (rcount (count b) + 1))) ∧
  local_of_atomic (Atomic (Ref 0 (Some 1%positive))) sample_owned
  = inr ((Local (Some 1%positive), Atomic (Ref 1 (Some 1%positive))), sample_owned) ∧
  local_dtor (Local (Some 1%positive)) sample_owned
  = inr (tt, upd 1%positive (Block (Refcount (-1) 1) (Some 9%positive) None None) sample_owned).
Proof.
  split; [|split; reflexivity].
  intros H.
  specialize (H (Atomic (Ref 0 (Some 1%positive))) sample_owned _ _ _ 1%positive
                (Block (Refcount 0 1) (Some 9%positive) None None) eq_refl eq_refl eq_refl).
  vm_compute in H. discriminate.
Qed.

(** C1 (as amended). Pinning a slot that holds the block at [a] adds one to
    the slot's ephemeral count and does not touch the block; the handle it
    yields owns one ephemeral unit: while a slot still holds the block,
    releasing the handle takes one off the block's ephemeral count and
    leaves its reference count alone. The migrate step [adjust(-1, +1)]
    belongs to the copy constructor of the slot instead. *)
Theorem pin_takes_ephemeral_share m this a b :
  ref_ptr (xxx this) = Some a →
  heap m !! a = Some b →
  in_long (ref_ecount (xxx this) + 1) →
  fits (-1) 0 (count b) → fits (-1) 1 (count b) →
  rcount (count b) ≠ 0 →
  local_of_atomic this m =
    inr ((Local (Some a), Atomic (Ref (ref_ecount (xxx this) + 1) (Some a))), m) ∧
  local_dtor (Local (Some a)) m =
    inr (tt, upd a (set_count (Refcount (ecount (count b) - 1) (rcount (count b))) b) m) ∧
  atomic_copy this m =
    inr ((Atomic (Ref 0 (Some a)), Atomic (Ref (ref_ecount (xxx this) + 1) (Some a))),
         upd a (set_count (Refcount (ecount (count b) - 1) (rcount (count b) + 1)) b) m).
Proof.
  intros Hp Hb He Hf0 Hf1 Hr. split; [|split].
  - rewrite (local_of_atomic_run m this He). by rewrite Hp.
  - rewrite (local_dtor_run m a b Hb Hf0). simpl.
    rewrite decide_False; [done|]. intros Hc. rewrite Hc in Hr. done.
  - by apply atomic_copy_run.
Qed.

Lemma pin_takes_ephemeral_share_witness :
  local_of_atomic (Atomic (Ref 0 (Some 1%positive))) sample_owned =
    inr ((Local (Some 1%positive), Atomic (Ref (0 + 1) (Some 1%positive))), sample_owned) ∧
  local_dtor (Local (Some 1%positive)) sample_owned =
    inr (tt, upd 1%positive
               (set_count (Refcount (0 - 1) 1) (Block (Refcount 0 1) (Some 9%positive) None None))
               sample_owned) ∧
  atomic_copy (Atomic (Ref 0 (Some 1%positive))) sample_owned =
    inr ((Atomic (Ref 0 (Some 1%positive)), Atomic (Ref (0 + 1) (Some 1%positive))),
         upd 1%positive
           (set_count (Refcount (0 - 1) (1 + 1)) (Block (Refcount 0 1) (Some 9%positive) None None))
           sample_owned).
Proof.
  apply (pin_takes_ephemeral_share sample_owned (Atomic (Ref 0 (Some 1%positive))) 1%positive
           (Block (Refcount 0 1) (Some 9%positive) None None)).
  - reflexivity.
  - reflexivity.
  - vm_compute; split; discriminate.
  - split; vm_compute; split; discriminate.
  - split; vm_compute; split; discriminate.
  - simpl. lia.
Defined.

(** ** The null slot *)

(** C8. For a slot whose block pointer is null: pinning yields the empty
    handle and touches no block; a [cas] whose expected handle is empty
    succeeds on a slot exactly when that slot's block pointer is null (and
    on this one it does); the destructor adjusts no count, frees nothing
    and calls no hook, also on the pair [cas] moves out of this slot. *)
Theorem null_slot_is_inert m this sl xchg :
  ref_ptr (xxx this) = None →
  in_long (ref_ecount (xxx this) + 1) →
  local_of_atomic this m =
    inr ((Local None, Atomic (Ref (ref_ecount (xxx this) + 1) None)), m) ∧
  (∃ sl' xchg',
     cas sl (Local None) xchg = inr (bool_decide (ref_ptr (xxx sl) = None), sl', xchg')) ∧
  cas this (Local None) xchg = inr (true, Atomic (xxx xchg), this) ∧
  atomic_dtor this m = inr (tt, m).
Proof.
  intros Hp He. split; [|split; [|split]].
  - rewrite (local_of_atomic_run m this He). by rewrite Hp.
  - rewrite cas_seq. cbn [refptr]. case_decide as Hd.
    + rewrite bool_decide_eq_true_2 by done. eauto.
    + rewrite bool_decide_eq_false_2 by done. eauto.
  - rewrite cas_seq. cbn [refptr]. by rewrite decide_True.
  - unfold atomic_dtor. by rewrite Hp.
Qed.

Lemma null_slot_is_inert_witness :
  local_of_atomic (Atomic (Ref 0 None)) sample_owned =
    inr ((Local None, Atomic (Ref (0 + 1) None)), sample_owned) ∧
  (∃ sl' xchg',
     cas (Atomic (Ref 3 (Some 1%positive))) (Local None) (Atomic (Ref 0 None))
     = inr (bool_decide (ref_ptr (xxx (Atomic (Ref 3 (Some 1%positive)))) = None), sl', xchg')) ∧
  cas (Atomic (Ref 0 None)) (Local None) (Atomic (Ref 0 None))
  = inr (true, Atomic (xxx (Atomic (Ref 0 None))), Atomic (Ref 0 None)) ∧
  atomic_dtor (Atomic (Ref 0 None)) sample_owned = inr (tt, sample_owned).
Proof.
  apply (null_slot_is_inert sample_owned (Atomic (Ref 0 None))
           (Atomic (Ref 3 (Some 1%positive))) (Atomic (Ref 0 None))).
  - reflexivity.
  - vm_compute; split; discriminate.
Defined.

(** ** The balance of the free store *)

Lemma local_dtor_overflow m a b :
  heap m !! a = Some b → ¬ fits (-1) 0 (count b) →
  local_dtor (Local (Some a)) m = inl SignedOverflow.
Proof.
  intros Hb Hfit. unfold local_dtor. cbn [refptr].
  by rewrite (bind_inl _ _ _ _ (adjust_at_overflow _ _ _ _ _ Hb Hfit)).
Qed.

Lemma atomic_dtor_overflow m a b e :
  heap m !! a = Some b → ¬ fits e (-1) (count b) →
  atomic_dtor (Atomic (Ref e (Some a))) m = inl SignedOverflow.
Proof.
  intros Hb Hfit. unfold atomic_dtor. cbn [xxx ref_ptr ref_ecount].
  by rewrite (bind_inl _ _ _ _ (adjust_at_overflow _ _ _ _ _ Hb Hfit)).
Qed.

Lemma frees_snoc a l e :
  frees a (l ++ [e]) = frees a l + (if decide (e = EvFree a) then 1 else 0).
Proof. unfold frees. rewrite sumZ_app. simpl. lia. Qed.

Lemma hook_calls_snoc a l e :
  hook_calls a (l ++ [e]) =
  hook_calls a l + match e with
                   | EvPool _ a' => if decide (a' = a) then 1 else 0
                   | _ => 0
                   end.
Proof. unfold hook_calls. rewrite sumZ_app. simpl. lia. Qed.

Lemma only_at_upd a b m : only_at a m (upd a b m).
Proof.
  split; [done|]. intros a' Hne. unfold upd; simpl.
  by rewrite lookup_insert_ne.
Qed.

Lemma only_at_spec_destroy a b m : only_at a m (spec_destroy_or_recycle a b m).
Proof.
  unfold spec_destroy_or_recycle.
  split; [by destruct (pool b)|]. intros a' Hne.
  destruct (pool b) as [f|]; simpl.
  - rewrite lookup_insert_ne by done. rewrite frees_snoc, hook_calls_snoc.
    rewrite !decide_False by congruence. split; [done|]. lia.
  - rewrite lookup_delete_ne by done.
    rewrite !app_assoc, frees_snoc, hook_calls_snoc.
    rewrite decide_False by congruence.
    destruct (ptr b); simpl; rewrite ?app_nil_r, ?frees_snoc, ?hook_calls_snoc;
      rewrite ?decide_False by congruence; split; [done|lia|done|lia].
Qed.

Lemma only_at_trans a m1 m2 m3 : only_at a m1 m2 → only_at a m2 m3 → only_at a m1 m3.
Proof.
  intros [Hb1 H1] [Hb2 H2]. split; [congruence|].
  intros a' Hne. destruct (H1 a' Hne) as (? & ? & ?), (H2 a' Hne) as (? & ? & ?).
  repeat split; congruence.
Qed.

(** A change confined to the block at [a] keeps the balance when the
    accounts of every other block are untouched and the account of [a]
    is settled anew. *)
Lemma balanced_at a m m' cS eS cH pl ri cS' eS' cH' pl' ri' :
  balanced m cS eS cH pl ri →
  only_at a m m' →
  (a < brk m)%positive →
  (∀ a', a' ≠ a →
     cS' a' = cS a' ∧ eS' a' = eS a' ∧ cH' a' = cH a' ∧ pl' a' = pl a' ∧ ri' a' = ri a') →
  match heap m' !! a with
  | Some b' =>
      rcount (count b') = cS' a ∧ ecount (count b') + eS' a = cH' a ∧
      pool b' = pl' a ∧ (count b' = Refcount 0 0 → pool b' ≠ None) ∧
      frees a (log m') = 0 ∧
      hook_calls a (log m') = ri' a + (if decide (count b' = Refcount 0 0) then 1 else 0)
  | None =>
      cS' a = 0 ∧ eS' a = 0 ∧ cH' a = 0 ∧ frees a (log m') = 1 ∧
      hook_calls a (log m') = ri' a
  end →
  balanced m' cS' eS' cH' pl' ri'.
Proof.
  intros [Hlive Hgone] [Hbrk Hfr] Hlt Hsame Ha. split.
  - intros a' b' Hb'. destruct (decide (a' = a)) as [->|Hne].
    + rewrite Hb' in Ha. rewrite Hbrk.
      destruct Ha as (? & ? & ? & ? & ? & ?). repeat split; done.
    + destruct (Hfr a' Hne) as (Hh & Hf & Hk), (Hsame a' Hne) as (-> & -> & -> & -> & ->).
      rewrite Hh in Hb'. rewrite Hf, Hk, Hbrk. by apply Hlive.
  - intros a' Hb'. destruct (decide (a' = a)) as [->|Hne].
    + rewrite Hb' in Ha. rewrite Hbrk. rewrite decide_True by done.
      destruct Ha as (? & ? & ? & ? & ?). repeat split; try done; lia.
    + destruct (Hfr a' Hne) as (Hh & Hf & Hk), (Hsame a' Hne) as (-> & -> & -> & -> & ->).
      rewrite Hh in Hb'. rewrite Hf, Hk, Hbrk. by apply Hgone.
Qed.

Lemma balanced_ext m cS eS cH pl ri cS' eS' cH' pl' ri' :
  balanced m cS eS cH pl ri →
  (∀ a, cS' a = cS a ∧ eS' a = eS a ∧ cH' a = cH a ∧ pl' a = pl a ∧ ri' a = ri a) →
  balanced m cS' eS' cH' pl' ri'.
Proof.
  intros [Hlive Hgone] Hsame. split.
  - intros a b Hb. destruct (Hsame a) as (-> & -> & -> & -> & ->). by apply Hlive.
  - intros a Hb. destruct (Hsame a) as (-> & -> & -> & -> & ->). by apply Hgone.
Qed.

Lemma oneH_nonneg h a : 0 ≤ oneH h a.
Proof. unfold oneH. case_decide; lia. Qed.

Lemma oneS_nonneg s a : 0 ≤ oneS s a.
Proof. unfold oneS. case_decide; lia. Qed.

Lemma ephOne_zero s a : oneS s a = 0 → ephOne s a = 0.
Proof. unfold oneS, ephOne. case_decide; [lia|done]. Qed.

Ltac count_simpl :=
  unfold oneH, oneS, ephOne in *; cbn [refptr xxx ref_ptr ref_ecount] in *;
  repeat case_decide; simplify_eq; repeat split; try done; try lia.

(** A block that has an owner is allocated and its pair is not (0, 0). *)
Lemma balanced_owned m cS eS cH pl ri a :
  balanced m cS eS cH pl ri →
  (∀ a', 0 ≤ cS a' ∧ 0 ≤ cH a') → (cS a = 0 → eS a = 0) →
  0 < cS a + cH a →
  ∃ b, heap m !! a = Some b ∧ count b ≠ Refcount 0 0 ∧
       rcount (count b) = cS a ∧ ecount (count b) + eS a = cH a ∧ (a < brk m)%positive.
Proof.
  intros [Hlive Hgone] Hpos Hz Hown. destruct (heap m !! a) as [b|] eqn:Hb.
  - exists b. destruct (Hlive a b Hb) as (Hr & He & _ & _ & Hlt & _).
    repeat split; try done. intros Hc. rewrite Hc in Hr, He. simpl in *.
    destruct (Hpos a). lia.
  - destruct (Hgone a Hb) as (? & ? & ? & _). lia.
Qed.

(** [adjust] on an owned block that stays owned. *)
Lemma adjust_at_bal m a xe xr cS0 eS0 cH0 cS eS cH pl ri :
  balanced m cS0 eS0 cH0 pl ri →
  counts_ok cS0 eS0 cH0 → counts_ok cS eS cH →
  0 < cS0 a + cH0 a → 0 < cS a + cH a →
  cS a = cS0 a + xr → cH a - eS a = cH0 a - eS0 a + xe →
  (∀ a', a' ≠ a → cS a' = cS0 a' ∧ eS a' = eS0 a' ∧ cH a' = cH0 a') →
  post (adjust_at a xe xr m) (λ r, balanced r.2 cS eS cH pl ri).
Proof.
  intros Hbal Hok0 Hok Hown0 Hown HS HH Hoth.
  destruct (balanced_owned m _ _ _ _ _ a Hbal) as (b & Hb & Hnz & Hr & He & Hlt);
    [intros a'; destruct (Hok0 a') as (? & ? & _); done | apply Hok0 | done |].
  destruct (decide (fits xe xr (count b))) as [Hfit|Hfit].
  2:{ rewrite (adjust_at_overflow m a b xe xr Hb Hfit). by left. }
  rewrite (adjust_at_ok m a b xe xr Hb Hfit). simpl.
  destruct (bal_live _ _ _ _ _ _ Hbal a b Hb) as (_ & _ & Hpl & _ & _ & Hfr & Hhk).
  rewrite decide_False in Hhk by done.
  destruct (Hok a) as (HcS & HcH & HeS).
  eapply balanced_at; [exact Hbal | apply only_at_upd | done | |].
  - intros a' Hne. destruct (Hoth a' Hne) as (? & ? & ?). done.
  - unfold upd. cbn [heap log]. rewrite lookup_insert_eq. unfold set_count. simpl.
    assert (Hnz' : Refcount (ecount (count b) + xe) (rcount (count b) + xr) ≠ Refcount 0 0).
    { intros [= ? ?]. lia. }
    rewrite decide_False by done. repeat split; try done; lia.
Qed.

(** The body both destructors share: [adjust], then destroy-or-recycle
    when it answers 0. *)
Lemma release_run m a b xe xr :
  heap m !! a = Some b → fits xe xr (count b) →
  (adjust_at a xe xr ≫= λ rc, if decide (rc = 0) then destroy_or_recycle a else mret tt) m =
    let b' := set_count (Refcount (ecount (count b) + xe) (rcount (count b) + xr)) b in
    if decide (ecount (count b) + xe = 0 ∧ rcount (count b) + xr = 0)
    then inr (tt, spec_destroy_or_recycle a b' (upd a b' m))
    else inr (tt, upd a b' m).
Proof.
  intros Hb Hfit.
  rewrite (bind_inr _ _ _ _ _ (adjust_at_ok _ _ _ _ _ Hb Hfit)). simpl.
  destruct (decide (ecount (count b) + xe = 0 ∧ rcount (count b) + xr = 0)).
  - rewrite (decide_True (P := 0 = 0)) by done.
    apply destroy_or_recycle_spec. apply upd_lookup.
  - rewrite (decide_False (P := 1 = 0)) by done. done.
Qed.

Lemma release_bal m a xe xr cS0 eS0 cH0 cS eS cH pl ri :
  balanced m cS0 eS0 cH0 pl ri →
  counts_ok cS0 eS0 cH0 → counts_ok cS eS cH →
  0 < cS0 a + cH0 a →
  cS a = cS0 a + xr → cH a - eS a = cH0 a - eS0 a + xe →
  (∀ a', a' ≠ a → cS a' = cS0 a' ∧ eS a' = eS0 a' ∧ cH a' = cH0 a') →
  post ((adjust_at a xe xr ≫= λ rc, if decide (rc = 0) then destroy_or_recycle a else mret tt) m)
       (λ r, balanced r.2 cS eS cH pl ri).
Proof.
  intros Hbal Hok0 Hok Hown0 HS HH Hoth.
  destruct (balanced_owned m _ _ _ _ _ a Hbal) as (b & Hb & Hnz & Hr & He & Hlt);
    [intros a'; destruct (Hok0 a') as (? & ? & _); done | apply Hok0 | done |].
  destruct (decide (fits xe xr (count b))) as [Hfit|Hfit].
  2:{ rewrite (bind_inl _ _ _ _ (adjust_at_overflow m a b xe xr Hb Hfit)). by left. }
  rewrite (release_run m a b xe xr Hb Hfit).
  destruct (bal_live _ _ _ _ _ _ Hbal a b Hb) as (_ & _ & Hpl & _ & _ & Hfr & Hhk).
  rewrite decide_False in Hhk by done.
  destruct (Hok a) as (HcS & HcH & HeS).
  assert (Hoth' : ∀ a', a' ≠ a →
    cS a' = cS0 a' ∧ eS a' = eS0 a' ∧ cH a' = cH0 a' ∧ pl a' = pl a' ∧ ri a' = ri a').
  { intros a' Hne. destruct (Hoth a' Hne) as (? & ? & ?). done. }
  destruct b as [[e r] p po nx]. cbn [count ecount rcount pool ptr] in *.
  case_decide as Hz; simpl.
  - destruct Hz as [Hze Hzr].
    eapply balanced_at; [exact Hbal| | done | exact Hoth' |].
    + eapply only_at_trans; [apply only_at_upd | apply only_at_spec_destroy].
    + unfold spec_destroy_or_recycle, upd.
      destruct po as [f|]; cbn [pool ptr heap log brk set_count count].
      * rewrite lookup_insert_eq. unfold set_count. simpl.
        rewrite frees_snoc, hook_calls_snoc.
        rewrite decide_False by done. rewrite decide_True by done.
        rewrite decide_True by (f_equal; lia).
        repeat split; try done; lia.
      * rewrite lookup_delete_eq.
        rewrite app_assoc, frees_snoc, hook_calls_snoc. rewrite decide_True by done.
        destruct p; simpl; rewrite ?app_nil_r, ?frees_snoc, ?hook_calls_snoc;
          rewrite ?decide_False by done; repeat split; lia.
  - eapply balanced_at; [exact Hbal| apply only_at_upd | done | exact Hoth' |].
    unfold upd. cbn [heap log]. rewrite lookup_insert_eq. unfold set_count. simpl.
    rewrite decide_False by (intros [= ? ?]; apply Hz; lia).
    repeat split; try done; try lia.
    intros [= ? ?]. exfalso. apply Hz. lia.
Qed.

Lemma counts_ok_addH h cS eS cH :
  counts_ok cS eS cH → counts_ok cS eS (λ a, oneH h a + cH a).
Proof.
  intros Hok a. destruct (Hok a) as (? & ? & ?). pose proof (oneH_nonneg h a).
  repeat split; try done. lia.
Qed.

Lemma counts_ok_addS s cS eS cH :
  counts_ok cS eS cH → counts_ok (λ a, oneS s a + cS a) (λ a, ephOne s a + eS a) cH.
Proof.
  intros Hok a. destruct (Hok a) as (? & ? & ?). pose proof (oneS_nonneg s a).
  repeat split; try done; try lia.
  intros Hz. rewrite ephOne_zero by lia. lia.
Qed.

Lemma local_dtor_bal m h cS eS cH pl ri :
  counts_ok cS eS cH →
  balanced m cS eS (λ a, oneH h a + cH a) pl ri →
  post (local_dtor h m) (λ r, balanced r.2 cS eS cH pl ri).
Proof.
  intros Hok Hbal. destruct h as [[a|]].
  2:{ simpl. eapply balanced_ext; [exact Hbal|]. intros a. count_simpl. }
  apply (release_bal m a (-1) 0 _ _ _ cS eS cH pl ri Hbal);
    [by apply counts_ok_addH | done | | lia | |].
  - destruct (Hok a) as (? & ? & _). count_simpl.
  - count_simpl.
  - intros a' Hne. count_simpl.
Qed.

Lemma atomic_dtor_bal m s cS eS cH pl ri :
  counts_ok cS eS cH →
  balanced m (λ a, oneS s a + cS a) (λ a, ephOne s a + eS a) cH pl ri →
  post (atomic_dtor s m) (λ r, balanced r.2 cS eS cH pl ri).
Proof.
  intros Hok Hbal. destruct s as [[e [a|]]].
  2:{ simpl. eapply balanced_ext; [exact Hbal|]. intros a. count_simpl. }
  apply (release_bal m a e (-1) _ _ _ cS eS cH pl ri Hbal);
    [by apply counts_ok_addS | done | | | |].
  - destruct (Hok a) as (? & ? & _). count_simpl.
  - count_simpl.
  - count_simpl.
  - intros a' Hne. count_simpl.
Qed.

(** A block fresh from [new], with its first owner. *)
Lemma balanced_alloc m c p cS eS cH pl ri cS' eS' cH' :
  balanced m cS eS cH pl ri →
  c ≠ Refcount 0 0 →
  rcount c = cS' (brk m) → ecount c + eS' (brk m) = cH' (brk m) →
  (∀ a', a' ≠ brk m → cS' a' = cS a' ∧ eS' a' = eS a' ∧ cH' a' = cH a') →
  balanced (Machine (<[brk m:=Block c p None None]> (heap m)) (Pos.succ (brk m)) (log m))
    cS' eS' cH' pl ri.
Proof.
  intros Hbal Hc Hr He Hoth.
  assert (Hfresh : heap m !! brk m = None).
  { destruct (heap m !! brk m) as [b|] eqn:Hb; [|done].
    destruct (bal_live _ _ _ _ _ _ Hbal _ _ Hb) as (_ & _ & _ & _ & Hlt & _). lia. }
  destruct (bal_gone _ _ _ _ _ _ Hbal _ Hfresh) as (_ & _ & _ & Hfr & Hhk & Hpl).
  rewrite decide_False in Hfr by lia. destruct Hpl as [Hpl Hri]; [lia|].
  split; cbn [heap brk log].
  - intros a b. destruct (decide (a = brk m)) as [->|Hne].
    + rewrite lookup_insert_eq. intros [= <-]. cbn [count pool].
      rewrite decide_False by done. repeat split; try done; lia.
    + rewrite lookup_insert_ne by done. intros Hb.
      destruct (Hoth a Hne) as (-> & -> & ->).
      destruct (bal_live _ _ _ _ _ _ Hbal _ _ Hb) as (? & ? & ? & ? & ? & ? & ?).
      repeat split; try done. lia.
  - intros a. destruct (decide (a = brk m)) as [->|Hne].
    + by rewrite lookup_insert_eq.
    + rewrite lookup_insert_ne by done. intros Hb.
      destruct (Hoth a Hne) as (-> & -> & ->).
      destruct (bal_gone _ _ _ _ _ _ Hbal _ Hb) as (? & ? & ? & Hf & ? & Hp).
      repeat split; try done.
      * rewrite Hf. repeat case_decide; try done; lia.
      * apply Hp. lia.
      * apply Hp. lia.
Qed.

Lemma local_of_obj_bal m obj cS eS cH pl ri :
  balanced m cS eS cH pl ri →
  post (local_of_obj obj m) (λ r, balanced r.2 cS eS (λ a, oneH r.1 a + cH a) pl ri).
Proof.
  intros Hbal. destruct obj as [p|].
  - rewrite local_of_obj_run. simpl.
    assert (Hfresh : heap m !! brk m = None).
    { destruct (heap m !! brk m) as [b|] eqn:Hb; [|done].
      destruct (bal_live _ _ _ _ _ _ Hbal _ _ Hb) as (_ & _ & _ & _ & Hlt & _). lia. }
    destruct (bal_gone _ _ _ _ _ _ Hbal _ Hfresh) as (? & ? & ? & _).
    apply (balanced_alloc m _ _ cS eS cH); try done.
    + simpl. count_simpl.
    + intros a' Hne. count_simpl.
  - simpl. eapply balanced_ext; [exact Hbal|]. intros a. count_simpl.
Qed.

Lemma atomic_of_obj_bal m obj cS eS cH pl ri :
  balanced m cS eS cH pl ri →
  post (atomic_of_obj obj m)
    (λ r, balanced r.2 (λ a, oneS r.1 a + cS a) (λ a, ephOne r.1 a + eS a) cH pl ri).
Proof.
  intros Hbal. destruct obj as [p|].
  - rewrite atomic_of_obj_run. simpl.
    assert (Hfresh : heap m !! brk m = None).
    { destruct (heap m !! brk m) as [b|] eqn:Hb; [|done].
      destruct (bal_live _ _ _ _ _ _ Hbal _ _ Hb) as (_ & _ & _ & _ & Hlt & _). lia. }
    destruct (bal_gone _ _ _ _ _ _ Hbal _ Hfresh) as (? & ? & ? & _).
    apply (balanced_alloc m _ _ cS eS cH); try done.
    + simpl. count_simpl.
    + simpl. count_simpl.
    + intros a' Hne. count_simpl.
  - simpl. eapply balanced_ext; [exact Hbal|]. intros a. count_simpl.
Qed.

Lemma post_bind {A B} (c : result A) (f : A → result B) (Q' : A → Prop) (Q : B → Prop) :
  post c Q' → (∀ x, Q' x → post (f x) Q) → post (c ≫= f) Q.
Proof. intros Hc Hf. destruct c as [e|x]; simpl in *; [done|]. by apply Hf. Qed.

Lemma post_bind_M {A B} (c : M A) (f : A → M B) m (Q' : A * machine → Prop)
    (Q : B * machine → Prop) :
  post (c m) Q' → (∀ x m', Q' (x, m') → post (f x m') Q) → post ((c ≫= f) m) Q.
Proof.
  intros Hc Hf. unfold mbind, M_bind. destruct (c m) as [e|[x m']]; simpl in *; [done|].
  by apply Hf.
Qed.


(** The same free store against owners that moved counts between them:
    per block the slots are the same and handles minus ephemerals agree. *)
Lemma balanced_shift m cS eS cH pl ri cS' eS' cH' :
  balanced m cS eS cH pl ri →
  (∀ a, cS' a = cS a ∧ cH' a - eS' a = cH a - eS a ∧
        (cS a = 0 → cH a = 0 → eS' a = 0 ∧ cH' a = 0)) →
  balanced m cS' eS' cH' pl ri.
Proof.
  intros [Hlive Hgone] Hsh. split.
  - intros a b Hb. destruct (Hsh a) as (-> & Hd & _).
    destruct (Hlive a b Hb) as (? & ? & ? & ? & ? & ? & ?). repeat split; try done. lia.
  - intros a Hb. destruct (Hsh a) as (-> & Hd & Hz).
    destruct (Hgone a Hb) as (? & ? & ? & ? & ? & ?).
    destruct Hz as [-> ->]; done.
Qed.

Lemma local_copy_bal m src cS eS cH pl ri :
  counts_ok cS eS cH →
  balanced m cS eS (λ a, oneH src a + cH a) pl ri →
  post (local_copy src m)
    (λ r, balanced r.2 cS eS (λ a, oneH r.1 a + (oneH src a + cH a)) pl ri).
Proof.
  intros Hok Hbal. destruct src as [[a|]].
  2:{ simpl. eapply balanced_ext; [exact Hbal|]. intros a. count_simpl. }
  unfold local_copy. cbn [refptr].
  eapply post_bind_M.
  - apply (adjust_at_bal m a 1 0 _ _ _ cS eS
             (λ a', oneH (Local (Some a)) a' + (oneH (Local (Some a)) a' + cH a')) pl ri Hbal).
    + by apply counts_ok_addH.
    + by do 2 apply counts_ok_addH.
    + destruct (Hok a) as (? & ? & _). count_simpl.
    + destruct (Hok a) as (? & ? & _). count_simpl.
    + lia.
    + count_simpl.
    + intros a' Hne. count_simpl.
  - intros x m' Hm'. exact Hm'.
Qed.

Lemma atomic_of_local_bal m src cS eS cH pl ri :
  counts_ok cS eS cH →
  balanced m cS eS (λ a, oneH src a + cH a) pl ri →
  post (atomic_of_local src m)
    (λ r, balanced r.2 (λ a, oneS r.1 a + cS a) (λ a, ephOne r.1 a + eS a)
            (λ a, oneH src a + cH a) pl ri).
Proof.
  intros Hok Hbal. destruct src as [[a|]].
  2:{ simpl. eapply balanced_ext; [exact Hbal|]. intros a. count_simpl. }
  unfold atomic_of_local. cbn [refptr].
  eapply post_bind_M.
  - apply (adjust_at_bal m a 0 1 _ _ _
             (λ a', oneS (Atomic (Ref 0 (Some a))) a' + cS a')
             (λ a', ephOne (Atomic (Ref 0 (Some a))) a' + eS a')
             (λ a', oneH (Local (Some a)) a' + cH a') pl ri Hbal).
    + by apply counts_ok_addH.
    + by apply counts_ok_addS, counts_ok_addH.
    + destruct (Hok a) as (? & ? & _). count_simpl.
    + destruct (Hok a) as (? & ? & _). count_simpl.
    + count_simpl.
    + count_simpl.
    + intros a' Hne. count_simpl.
  - intros x m' Hm'. exact Hm'.
Qed.

Lemma local_of_atomic_bal m src cS eS cH pl ri :
  counts_ok cS eS cH →
  balanced m (λ a, oneS src a + cS a) (λ a, ephOne src a + eS a) cH pl ri →
  post (local_of_atomic src m)
    (λ r, balanced r.2 (λ a, oneS r.1.2 a + cS a) (λ a, ephOne r.1.2 a + eS a)
            (λ a, oneH r.1.1 a + cH a) pl ri).
Proof.
  intros Hok Hbal.
  destruct (decide (in_long (ref_ecount (xxx src) + 1))) as [He|He].
  2:{ unfold local_of_atomic, mbind, M_bind, lift.
      rewrite (getrefptr_overflow _ He). by left. }
  rewrite (local_of_atomic_run m src He). simpl.
  eapply balanced_shift; [exact Hbal|].
  intros a. destruct (Hok a) as (? & ? & ?). destruct src as [[e p]]. count_simpl.
Qed.

Lemma atomic_copy_bal m src cS eS cH pl ri :
  counts_ok cS eS cH →
  balanced m (λ a, oneS src a + cS a) (λ a, ephOne src a + eS a) cH pl ri →
  post (atomic_copy src m)
    (λ r, balanced r.2 (λ a, oneS r.1.1 a + (oneS r.1.2 a + cS a))
            (λ a, ephOne r.1.1 a + (ephOne r.1.2 a + eS a)) cH pl ri).
Proof.
  intros Hok Hbal.
  destruct (decide (in_long (ref_ecount (xxx src) + 1))) as [He|He].
  2:{ unfold atomic_copy, mbind, M_bind, lift.
      rewrite (getrefptr_overflow _ He). by left. }
  unfold atomic_copy, mbind at 1, M_bind at 1, lift. rewrite (getrefptr_run _ He).
  destruct src as [[e [a|]]]; cbn [xxx ref_ptr ref_ecount] in *.
  2:{ simpl. eapply balanced_ext; [exact Hbal|]. intros a. count_simpl. }
  eapply post_bind_M.
  - apply (adjust_at_bal m a (-1) 1 _ _ _
             (λ a', oneS (Atomic (Ref 0 (Some a))) a' + (oneS (Atomic (Ref (e + 1) (Some a))) a' + cS a'))
             (λ a', ephOne (Atomic (Ref 0 (Some a))) a' + (ephOne (Atomic (Ref (e + 1) (Some a))) a' + eS a'))
             cH pl ri Hbal).
    + by apply counts_ok_addS.
    + by do 2 apply counts_ok_addS.
    + destruct (Hok a) as (? & ? & _). count_simpl.
    + destruct (Hok a) as (? & ? & _). count_simpl.
    + count_simpl.
    + count_simpl.
    + intros a' Hne. count_simpl.
  - intros x m' Hm'. exact Hm'.
Qed.

Lemma from_pool_inv a m r :
  from_pool a m = inr r → ∃ b, heap m !! a = Some b ∧ count b = Refcount 0 0.
Proof.
  unfold from_pool. destruct (heap m !! a) as [b|]; [|done].
  case_decide; [|done]. eauto.
Qed.

Lemma from_pool_benign a m : post (from_pool a m) (λ _, True).
Proof.
  unfold from_pool. destruct (heap m !! a); [case_decide|]; simpl; auto.
  all: by right; right; right.
Qed.

(** A block taken out of the pool gets its first owner. *)
Lemma balanced_reinstall m a b c cS eS cH pl ri cS' eS' cH' :
  balanced m cS eS cH pl ri →
  counts_ok cS eS cH →
  heap m !! a = Some b → count b = Refcount 0 0 →
  c ≠ Refcount 0 0 →
  rcount c = cS' a → ecount c + eS' a = cH' a →
  (∀ a', a' ≠ a → cS' a' = cS a' ∧ eS' a' = eS a' ∧ cH' a' = cH a') →
  balanced (upd a (set_count c b) m) cS' eS' cH' pl
    (λ a', ri a' + if decide (a' = a) then 1 else 0).
Proof.
  intros Hbal Hok Hb Hz Hc Hr He Hoth.
  destruct (bal_live _ _ _ _ _ _ Hbal a b Hb) as (_ & _ & Hpl & Hnn & Hlt & Hfr & Hhk).
  rewrite decide_True in Hhk by done.
  eapply balanced_at; [exact Hbal | apply only_at_upd | done | |].
  - intros a' Hne. destruct (Hoth a' Hne) as (? & ? & ?).
    rewrite decide_False by done. repeat split; try done. lia.
  - unfold upd. cbn [heap log]. rewrite lookup_insert_eq. unfold set_count. simpl.
    rewrite decide_True by done. rewrite decide_False by done.
    repeat split; try done. lia.
Qed.

Lemma local_recycled_bal m a cS eS cH pl ri :
  counts_ok cS eS cH →
  from_pool a m = inr tt →
  balanced m cS eS cH pl ri →
  post (local_recycled (Some a) m)
    (λ r, balanced r.2 cS eS (λ a', oneH r.1 a' + cH a') pl
            (λ a', ri a' + if decide (a' = a) then 1 else 0)).
Proof.
  intros Hok Hfp Hbal. destruct (from_pool_inv _ _ _ Hfp) as (b & Hb & Hz).
  rewrite (local_recycled_run m a b Hb). simpl.
  destruct (bal_live _ _ _ _ _ _ Hbal a b Hb) as (Hr & He & _).
  rewrite Hz in Hr, He. simpl in *. destruct (Hok a) as (_ & _ & HeS).
  eapply balanced_reinstall; try done.
  - simpl. rewrite HeS in He by done. count_simpl.
  - intros a' Hne. count_simpl.
Qed.

Lemma atomic_recycled_bal m a cS eS cH pl ri :
  counts_ok cS eS cH →
  from_pool a m = inr tt →
  balanced m cS eS cH pl ri →
  post (atomic_recycled (Some a) m)
    (λ r, balanced r.2 (λ a', oneS r.1 a' + cS a') (λ a', ephOne r.1 a' + eS a') cH pl
            (λ a', ri a' + if decide (a' = a) then 1 else 0)).
Proof.
  intros Hok Hfp Hbal. destruct (from_pool_inv _ _ _ Hfp) as (b & Hb & Hz).
  rewrite (atomic_recycled_run m a b Hb). simpl.
  destruct (bal_live _ _ _ _ _ _ Hbal a b Hb) as (Hr & He & _).
  rewrite Hz in Hr, He. simpl in *. destruct (Hok a) as (_ & _ & HeS).
  eapply balanced_reinstall; try done.
  - simpl. count_simpl.
  - simpl. rewrite HeS in He by done. count_simpl.
  - intros a' Hne. count_simpl.
Qed.

Lemma setPool_bal m h p cS eS cH pl ri :
  counts_ok cS eS cH →
  balanced m cS eS (λ a, oneH h a + cH a) pl ri →
  post (setPool h p m)
    (λ r, balanced r.2 cS eS (λ a, oneH h a + cH a)
            (λ a', if decide (refptr h = Some a') then p else pl a') ri).
Proof.
  intros Hok Hbal. destruct h as [[a|]]; [|by right; left].
  destruct (balanced_owned m _ _ _ _ _ a Hbal) as (b & Hb & Hnz & Hr & He & Hlt).
  { intros a'. destruct (Hok a') as (? & ? & _). pose proof (oneH_nonneg (Local (Some a)) a'). lia. }
  { apply Hok. }
  { destruct (Hok a) as (? & ? & _). count_simpl. }
  pose proof (pool_access_run m (Local (Some a)) p) as Hrun. cbn [refptr] in Hrun.
  rewrite Hb in Hrun. destruct Hrun as (-> & _). simpl.
  destruct (bal_live _ _ _ _ _ _ Hbal a b Hb) as (_ & _ & _ & _ & _ & Hfr & Hhk).
  eapply balanced_at; [exact Hbal | apply only_at_upd | done | |].
  - intros a' Hne. rewrite decide_False by congruence. done.
  - unfold upd. cbn [heap log]. rewrite lookup_insert_eq. unfold set_pool. simpl.
    rewrite decide_True by done. repeat split; try done.
Qed.

(** ** Counting owners in lists *)

Lemma sumZ_insert {A} (f : A → Z) l i x y :
  l !! i = Some x → sumZ f (<[i:=y]> l) = sumZ f l - f x + f y.
Proof.
  revert i. induction l as [|z l IH]; intros [|i] Hi; simplify_eq/=; [lia|].
  rewrite (IH i Hi). lia.
Qed.

Lemma sumZ_delete {A} (f : A → Z) l i x :
  l !! i = Some x → sumZ f (delete i l) = sumZ f l - f x.
Proof.
  revert i. induction l as [|z l IH]; intros [|i] Hi; simplify_eq/=; [lia|].
  rewrite (IH i Hi). lia.
Qed.

Lemma sumZ_nonneg {A} (f : A → Z) l : (∀ x, 0 ≤ f x) → 0 ≤ sumZ f l.
Proof. intros Hf. induction l as [|x l IH]; simpl; [lia|]. specialize (Hf x). lia. Qed.

Lemma cntS_zero_ephS ss a : cntS ss a = 0 → ephS ss a = 0.
Proof.
  unfold cntS, ephS. induction ss as [|s ss IH]; simpl; [done|].
  intros Hz. pose proof (oneS_nonneg s a).
  pose proof (sumZ_nonneg (λ s, oneS s a) ss (λ s, oneS_nonneg s a)).
  rewrite IH by lia. rewrite ephOne_zero by lia. lia.
Qed.

Lemma counts_ok_lists ss hs : counts_ok (cntS ss) (ephS ss) (cntH hs).
Proof.
  intros a. split; [|split].
  - apply sumZ_nonneg. intros s. apply oneS_nonneg.
  - apply sumZ_nonneg. intros h. apply oneH_nonneg.
  - apply cntS_zero_ephS.
Qed.

Lemma obj_at_post {A} (l : list A) i (Q : A → Prop) :
  (∀ x, l !! i = Some x → Q x) → post (obj_at l i) Q.
Proof.
  intros H. unfold obj_at. destruct (l !! i) as [x|]; simpl; [by apply H|].
  by right; right; left.
Qed.

Lemma local_replace_bal m this temp cS eS cH pl ri :
  counts_ok cS eS cH →
  balanced m cS eS (λ a, oneH temp a + (oneH this a + cH a)) pl ri →
  post ((let '(this', temp') := local_swap this temp in local_dtor temp';; mret this') m)
       (λ r, balanced r.2 cS eS (λ a, oneH r.1 a + cH a) pl ri).
Proof.
  intros Hok Hbal. unfold local_swap. cbn beta iota.
  eapply post_bind_M.
  - apply (local_dtor_bal m _ cS eS (λ a, oneH temp a + cH a)).
    + by apply counts_ok_addH.
    + eapply balanced_ext; [exact Hbal|]. intros a. count_simpl.
  - intros [] m' Hm'. simpl in *. eapply balanced_ext; [exact Hm'|]. intros a. count_simpl.
Qed.

Lemma atomic_replace_bal m this temp cS eS cH pl ri :
  counts_ok cS eS cH →
  balanced m (λ a, oneS temp a + (oneS this a + cS a))
             (λ a, ephOne temp a + (ephOne this a + eS a)) cH pl ri →
  post ((lift (swap this temp) ≫= λ '(this', temp'), atomic_dtor temp';; mret this') m)
       (λ r, balanced r.2 (λ a, oneS r.1 a + cS a) (λ a, ephOne r.1 a + eS a) cH pl ri).
Proof.
  intros Hok Hbal. unfold mbind at 1, M_bind at 1, lift. rewrite swap_seq.
  eapply post_bind_M.
  - apply (atomic_dtor_bal m _ (λ a, oneS temp a + cS a) (λ a, ephOne temp a + eS a) cH).
    + by apply counts_ok_addS.
    + eapply balanced_ext; [exact Hbal|]. intros a. count_simpl.
  - intros [] m' Hm'. simpl in *. eapply balanced_ext; [exact Hm'|]. intros a. count_simpl.
Qed.

Lemma last_set_snoc a l a0 p :
  last_set a (l ++ [(a0, p)]) = if decide (a0 = a) then p else last_set a l.
Proof. unfold last_set. by rewrite foldl_app. Qed.

Lemma last_set_note a h p l :
  last_set a (note_pool h p l) = if decide (refptr h = Some a) then p else last_set a l.
Proof.
  unfold note_pool. destruct (refptr h) as [a0|].
  - rewrite last_set_snoc. repeat case_decide; congruence.
  - by rewrite decide_False.
Qed.

Lemma count_of_snoc a l x :
  count_of a (l ++ [x]) = count_of a l + if decide (a = x) then 1 else 0.
Proof.
  unfold count_of. rewrite sumZ_app. simpl. repeat case_decide; try congruence; lia.
Qed.

Lemma get_owned m h cS eS cH pl ri :
  counts_ok cS eS cH →
  balanced m cS eS (λ a, oneH h a + cH a) pl ri →
  ∃ p, get h m = inr (p, m).
Proof.
  intros Hok Hbal. destruct h as [[a|]]; [|by exists None].
  destruct (balanced_owned m _ _ _ _ _ a Hbal) as (b & Hb & _).
  { intros a'. destruct (Hok a') as (? & ? & _). pose proof (oneH_nonneg (Local (Some a)) a'). lia. }
  { apply Hok. }
  { destruct (Hok a) as (? & ? & _). count_simpl. }
  exists (ptr b). unfold get. cbn [refptr].
  by rewrite (bind_inr _ _ _ _ _ (load_some _ _ _ Hb)).
Qed.

Lemma local_assign_atomic_bal m this src cS eS cH pl ri :
  counts_ok cS eS cH →
  balanced m (λ a, oneS src a + cS a) (λ a, ephOne src a + eS a)
    (λ a, oneH this a + cH a) pl ri →
  post (local_assign_atomic this src m)
    (λ r, balanced r.2 (λ a, oneS r.1.2 a + cS a) (λ a, ephOne r.1.2 a + eS a)
            (λ a, oneH r.1.1 a + cH a) pl ri).
Proof.
  intros Hok Hbal. unfold local_assign_atomic.
  eapply post_bind_M.
  - apply (local_of_atomic_bal m src cS eS (λ a, oneH this a + cH a));
      [by apply counts_ok_addH | exact Hbal].
  - intros [temp src'] m1 Hm1. simpl in Hm1. unfold local_swap. cbn beta iota.
    eapply post_bind_M.
    + apply (local_dtor_bal m1 (Local (refptr this)) (λ a, oneS src' a + cS a)
               (λ a, ephOne src' a + eS a) (λ a, oneH temp a + cH a)).
      * by apply counts_ok_addS, counts_ok_addH.
      * eapply balanced_ext; [exact Hm1|]. intros a. count_simpl.
    + intros [] m2 Hm2. simpl in *. eapply balanced_ext; [exact Hm2|].
      intros a. count_simpl.
Qed.

Lemma atomic_arrow_bal m this cS eS cH pl ri :
  counts_ok cS eS cH →
  balanced m (λ a, oneS this a + cS a) (λ a, ephOne this a + eS a) cH pl ri →
  post (atomic_arrow this m)
    (λ r, balanced r.2 (λ a, oneS r.1.2 a + cS a) (λ a, ephOne r.1.2 a + eS a) cH pl ri).
Proof.
  intros Hok Hbal. unfold atomic_arrow.
  eapply post_bind_M.
  - apply (local_of_atomic_bal m this cS eS cH pl ri Hok Hbal).
  - intros [temp this'] m1 Hm1. simpl in Hm1.
    destruct (get_owned m1 temp _ _ _ _ _ (counts_ok_addS this' _ _ _ Hok) Hm1) as [p Hget].
    unfold local_arrow. rewrite (bind_inr _ _ _ _ _ Hget).
    eapply post_bind_M.
    + apply (local_dtor_bal m1 temp _ _ _ _ _ (counts_ok_addS this' _ _ _ Hok) Hm1).
    + intros [] m2 Hm2. exact Hm2.
Qed.

Lemma atomic_eq_local_bal m this rhd cS eS cH pl ri :
  counts_ok cS eS cH →
  balanced m (λ a, oneS this a + cS a) (λ a, ephOne this a + eS a) cH pl ri →
  post (atomic_eq_local this rhd m)
    (λ r, balanced r.2 (λ a, oneS r.1.2 a + cS a) (λ a, ephOne r.1.2 a + eS a) cH pl ri).
Proof.
  intros Hok Hbal. unfold atomic_eq_local.
  eapply post_bind_M.
  - apply (local_of_atomic_bal m this cS eS cH pl ri Hok Hbal).
  - intros [temp this'] m1 Hm1. simpl in Hm1.
    eapply post_bind_M.
    + apply (local_dtor_bal m1 temp _ _ _ _ _ (counts_ok_addS this' _ _ _ Hok) Hm1).
    + intros [] m2 Hm2. exact Hm2.
Qed.

Lemma from_pool_post {B} a m (f : unit → result B) (Q : B → Prop) :
  (from_pool a m = inr tt → post (f tt) Q) → post (from_pool a m ≫= f) Q.
Proof.
  intros H. pose proof (from_pool_benign a m) as Hb.
  destruct (from_pool a m) as [e|[]]; simpl in *; auto.
Qed.

Ltac sum_ext :=
  let a := fresh "a" in
  intros a; unfold cntH, cntS, ephS; cbn [mach slots handles hist taken];
  repeat match goal with
    | H : ?l !! ?i = Some ?x |- context [sumZ ?f (<[?i:=?y]> ?l)] =>
        rewrite (sumZ_insert f l i x y H)
    | H : ?l !! ?i = Some ?x |- context [sumZ ?f (delete ?i ?l)] =>
        rewrite (sumZ_delete f l i x H)
    | |- context [count_of ?a (?l ++ [?x])] => rewrite (count_of_snoc a l x)
    | |- context [last_set ?a (note_pool ?h ?p ?l)] => rewrite (last_set_note a h p l)
    | |- context [sumZ ?f (?l1 ++ ?l2)] => rewrite (sumZ_app f l1 l2)
    end;
  simpl; repeat split; try done; try lia.

(** ** Every call keeps the balance *)

Section Steps.
Variables (m : machine) (ss : list atomic_ptr) (hs : list local_ptr).
Variables (hi : list (addr * pool_put_t)) (tk : list addr).
Hypothesis Hinv : inv (World m ss hs hi tk).

Lemma step_NewHandle obj : post (step (NewHandle obj) (World m ss hs hi tk)) inv.
Proof using Hinv.
cbn [step]. eapply post_bind; [by apply local_of_obj_bal, Hinv|].
intros [h m1] Hm1. simpl in *. eapply balanced_ext; [exact Hm1|]. sum_ext.
Qed.

Lemma step_CopyHandle i : post (step (CopyHandle i) (World m ss hs hi tk)) inv.
Proof using Hinv.
cbn [step]. eapply post_bind; [apply obj_at_post; intros src Hsrc; exact Hsrc|].
intros src Hsrc. simpl in Hsrc.
eapply post_bind.
- apply (local_copy_bal m src (cntS ss) (ephS ss) (cntH (delete i hs))).
  + apply counts_ok_lists.
  + eapply balanced_ext; [exact Hinv|]. sum_ext.
- intros [h m1] Hm1. simpl in *. eapply balanced_ext; [exact Hm1|]. sum_ext.
Qed.

Lemma step_Pin s : post (step (Pin s) (World m ss hs hi tk)) inv.
Proof using Hinv.
cbn [step]. eapply post_bind; [apply obj_at_post; intros src Hsrc; exact Hsrc|].
intros src Hsrc. simpl in Hsrc.
eapply post_bind.
- apply (local_of_atomic_bal m src (cntS (delete s ss)) (ephS (delete s ss)) (cntH hs)).
  + apply counts_ok_lists.
  + eapply balanced_ext; [exact Hinv|]. sum_ext.
- intros [[h src'] m1] Hm1. simpl in *. eapply balanced_ext; [exact Hm1|]. sum_ext.
Qed.

Lemma step_DropHandle i : post (step (DropHandle i) (World m ss hs hi tk)) inv.
Proof using Hinv.
cbn [step]. eapply post_bind; [apply obj_at_post; intros h Hh; exact Hh|].
intros h Hh. simpl in Hh.
eapply post_bind.
- apply (local_dtor_bal m h (cntS ss) (ephS ss) (cntH (delete i hs))).
  + apply counts_ok_lists.
  + eapply balanced_ext; [exact Hinv|]. sum_ext.
- intros [[] m1] Hm1. simpl in *. exact Hm1.
Qed.

Lemma step_RecycledHandle a : post (step (RecycledHandle a) (World m ss hs hi tk)) inv.
Proof using Hinv.
cbn [step]. apply from_pool_post. intros Hfp.
eapply post_bind.
- apply (local_recycled_bal m a (cntS ss) (ephS ss) (cntH hs));
    [apply counts_ok_lists | done | exact Hinv].
- intros [h m1] Hm1. simpl in *. eapply balanced_ext; [exact Hm1|]. sum_ext.
Qed.

Lemma step_AssignHandleObj i obj :
post (step (AssignHandleObj i obj) (World m ss hs hi tk)) inv.
Proof using Hinv.
cbn [step]. eapply post_bind; [apply obj_at_post; intros h Hh; exact Hh|].
intros h Hh. simpl in Hh.
eapply post_bind.
- unfold local_assign_obj. eapply post_bind_M.
  + apply (local_of_obj_bal m obj (cntS ss) (ephS ss) (cntH hs)). exact Hinv.
  + intros temp m1 Hm1. simpl in Hm1.
    apply (local_replace_bal m1 h temp (cntS ss) (ephS ss) (cntH (delete i hs)));
      [apply counts_ok_lists|].
    eapply balanced_ext; [exact Hm1|]. sum_ext.
- intros [h' m1] Hm1. simpl in *. eapply balanced_ext; [exact Hm1|]. sum_ext.
Qed.

Lemma step_AssignHandleHandle i j :
post (step (AssignHandleHandle i j) (World m ss hs hi tk)) inv.
Proof using Hinv.
cbn [step]. eapply post_bind; [apply obj_at_post; intros h Hh; exact Hh|].
intros h Hh. simpl in Hh.
eapply post_bind; [apply obj_at_post; intros src Hsrc; exact Hsrc|].
intros src Hsrc. simpl in Hsrc.
eapply post_bind.
- unfold local_assign_local. eapply post_bind_M.
  + apply (local_copy_bal m src (cntS ss) (ephS ss) (cntH (delete j hs)));
      [apply counts_ok_lists|].
    eapply balanced_ext; [exact Hinv|]. sum_ext.
  + intros temp m1 Hm1. simpl in Hm1.
    apply (local_replace_bal m1 h temp (cntS ss) (ephS ss) (cntH (delete i hs)));
      [apply counts_ok_lists|].
    eapply balanced_ext; [exact Hm1|]. sum_ext.
- intros [h' m1] Hm1. simpl in *. eapply balanced_ext; [exact Hm1|]. sum_ext.
Qed.

Lemma step_HandleRecycle i a :
post (step (HandleRecycle i a) (World m ss hs hi tk)) inv.
Proof using Hinv.
cbn [step]. eapply post_bind; [apply obj_at_post; intros h Hh; exact Hh|].
intros h Hh. simpl in Hh.
apply from_pool_post. intros Hfp.
eapply post_bind.
- unfold recycle. eapply post_bind_M.
  + apply (local_recycled_bal m a (cntS ss) (ephS ss) (cntH hs));
      [apply counts_ok_lists | done | exact Hinv].
  + intros temp m1 Hm1. simpl in Hm1.
    apply (local_replace_bal m1 h temp (cntS ss) (ephS ss) (cntH (delete i hs)));
      [apply counts_ok_lists|].
    eapply balanced_ext; [exact Hm1|]. sum_ext.
- intros [h' m1] Hm1. simpl in *. eapply balanced_ext; [exact Hm1|]. sum_ext.
Qed.

Lemma step_SetPool i p : post (step (SetPool i p) (World m ss hs hi tk)) inv.
Proof using Hinv.
cbn [step]. eapply post_bind; [apply obj_at_post; intros h Hh; exact Hh|].
intros h Hh. simpl in Hh.
eapply post_bind.
- apply (setPool_bal m h p (cntS ss) (ephS ss) (cntH (delete i hs)));
    [apply counts_ok_lists|].
  eapply balanced_ext; [exact Hinv|]. sum_ext.
- intros [[] m1] Hm1. simpl in *. eapply balanced_ext; [exact Hm1|]. sum_ext.
Qed.

Lemma step_AssignHandleSlot i s :
  post (step (AssignHandleSlot i s) (World m ss hs hi tk)) inv.
Proof using Hinv.
cbn [step]. eapply post_bind; [apply obj_at_post; intros h Hh; exact Hh|].
intros h Hh. simpl in Hh.
eapply post_bind; [apply obj_at_post; intros src Hsrc; exact Hsrc|].
intros src Hsrc. simpl in Hsrc.
eapply post_bind.
- apply (local_assign_atomic_bal m h src (cntS (delete s ss)) (ephS (delete s ss))
           (cntH (delete i hs))); [apply counts_ok_lists|].
  eapply balanced_ext; [exact Hinv|]. sum_ext.
- intros [[h' src'] m1] Hm1. simpl in *. eapply balanced_ext; [exact Hm1|]. sum_ext.
Qed.

Lemma step_NewSlot obj : post (step (NewSlot obj) (World m ss hs hi tk)) inv.
Proof using Hinv.
cbn [step]. eapply post_bind; [by apply atomic_of_obj_bal, Hinv|].
intros [sl m1] Hm1. simpl in *. eapply balanced_ext; [exact Hm1|]. sum_ext.
Qed.

Lemma step_SlotOfHandle i : post (step (SlotOfHandle i) (World m ss hs hi tk)) inv.
Proof using Hinv.
cbn [step]. eapply post_bind; [apply obj_at_post; intros src Hsrc; exact Hsrc|].
intros src Hsrc. simpl in Hsrc.
eapply post_bind.
- apply (atomic_of_local_bal m src (cntS ss) (ephS ss) (cntH (delete i hs)));
    [apply counts_ok_lists|].
  eapply balanced_ext; [exact Hinv|]. sum_ext.
- intros [sl m1] Hm1. simpl in *. eapply balanced_ext; [exact Hm1|]. sum_ext.
Qed.

Lemma step_CopySlot s : post (step (CopySlot s) (World m ss hs hi tk)) inv.
Proof using Hinv.
cbn [step]. eapply post_bind; [apply obj_at_post; intros src Hsrc; exact Hsrc|].
intros src Hsrc. simpl in Hsrc.
eapply post_bind.
- apply (atomic_copy_bal m src (cntS (delete s ss)) (ephS (delete s ss)) (cntH hs));
    [apply counts_ok_lists|].
  eapply balanced_ext; [exact Hinv|]. sum_ext.
- intros [[sl src'] m1] Hm1. simpl in *. eapply balanced_ext; [exact Hm1|]. sum_ext.
Qed.

Lemma step_RecycledSlot a : post (step (RecycledSlot a) (World m ss hs hi tk)) inv.
Proof using Hinv.
cbn [step]. apply from_pool_post. intros Hfp.
eapply post_bind.
- apply (atomic_recycled_bal m a (cntS ss) (ephS ss) (cntH hs));
    [apply counts_ok_lists | done | exact Hinv].
- intros [sl m1] Hm1. simpl in *. eapply balanced_ext; [exact Hm1|]. sum_ext.
Qed.

Lemma step_DropSlot s : post (step (DropSlot s) (World m ss hs hi tk)) inv.
Proof using Hinv.
cbn [step]. eapply post_bind; [apply obj_at_post; intros sl Hsl; exact Hsl|].
intros sl Hsl. simpl in Hsl.
eapply post_bind.
- apply (atomic_dtor_bal m sl (cntS (delete s ss)) (ephS (delete s ss)) (cntH hs));
    [apply counts_ok_lists|].
  eapply balanced_ext; [exact Hinv|]. sum_ext.
- intros [[] m1] Hm1. simpl in *. exact Hm1.
Qed.

Lemma step_AssignSlotObj s obj :
post (step (AssignSlotObj s obj) (World m ss hs hi tk)) inv.
Proof using Hinv.
cbn [step]. eapply post_bind; [apply obj_at_post; intros sl Hsl; exact Hsl|].
intros sl Hsl. simpl in Hsl.
eapply post_bind.
- unfold atomic_assign_obj. eapply post_bind_M.
  + apply (atomic_of_obj_bal m obj (cntS ss) (ephS ss) (cntH hs)). exact Hinv.
  + intros temp m1 Hm1. simpl in Hm1.
    apply (atomic_replace_bal m1 sl temp (cntS (delete s ss)) (ephS (delete s ss)) (cntH hs));
      [apply counts_ok_lists|].
    eapply balanced_ext; [exact Hm1|]. sum_ext.
- intros [sl' m1] Hm1. simpl in *. eapply balanced_ext; [exact Hm1|]. sum_ext.
Qed.

Lemma step_AssignSlotHandle s i :
post (step (AssignSlotHandle s i) (World m ss hs hi tk)) inv.
Proof using Hinv.
cbn [step]. eapply post_bind; [apply obj_at_post; intros sl Hsl; exact Hsl|].
intros sl Hsl. simpl in Hsl.
eapply post_bind; [apply obj_at_post; intros src Hsrc; exact Hsrc|].
intros src Hsrc. simpl in Hsrc.
eapply post_bind.
- unfold atomic_assign_local. eapply post_bind_M.
  + apply (atomic_of_local_bal m src (cntS ss) (ephS ss) (cntH (delete i hs)));
      [apply counts_ok_lists|].
    eapply balanced_ext; [exact Hinv|]. sum_ext.
  + intros temp m1 Hm1. simpl in Hm1.
    apply (atomic_replace_bal m1 sl temp (cntS (delete s ss)) (ephS (delete s ss)) (cntH hs));
      [apply counts_ok_lists|].
    eapply balanced_ext; [exact Hm1|]. sum_ext.
- intros [sl' m1] Hm1. simpl in *. eapply balanced_ext; [exact Hm1|]. sum_ext.
Qed.

Lemma step_SlotRecyle s a : post (step (SlotRecyle s a) (World m ss hs hi tk)) inv.
Proof using Hinv.
cbn [step]. eapply post_bind; [apply obj_at_post; intros sl Hsl; exact Hsl|].
intros sl Hsl. simpl in Hsl.
apply from_pool_post. intros Hfp.
eapply post_bind.
- unfold recyle. eapply post_bind_M.
  + apply (atomic_recycled_bal m a (cntS ss) (ephS ss) (cntH hs));
      [apply counts_ok_lists | done | exact Hinv].
  + intros temp m1 Hm1. simpl in Hm1.
    apply (atomic_replace_bal m1 sl temp (cntS (delete s ss)) (ephS (delete s ss)) (cntH hs));
      [apply counts_ok_lists|].
    eapply balanced_ext; [exact Hm1|]. sum_ext.
- intros [sl' m1] Hm1. simpl in *. eapply balanced_ext; [exact Hm1|]. sum_ext.
Qed.

Lemma step_Arrow s : post (step (Arrow s) (World m ss hs hi tk)) inv.
Proof using Hinv.
cbn [step]. eapply post_bind; [apply obj_at_post; intros sl Hsl; exact Hsl|].
intros sl Hsl. simpl in Hsl.
eapply post_bind.
- apply (atomic_arrow_bal m sl (cntS (delete s ss)) (ephS (delete s ss)) (cntH hs));
    [apply counts_ok_lists|].
  eapply balanced_ext; [exact Hinv|]. sum_ext.
- intros [[p sl'] m1] Hm1. simpl in *. eapply balanced_ext; [exact Hm1|]. sum_ext.
Qed.

Lemma step_EqSlotHandle s i :
  post (step (EqSlotHandle s i) (World m ss hs hi tk)) inv.
Proof using Hinv.
cbn [step]. eapply post_bind; [apply obj_at_post; intros sl Hsl; exact Hsl|].
intros sl Hsl. simpl in Hsl.
eapply post_bind; [apply obj_at_post; intros rhd Hrhd; exact Hrhd|].
intros rhd Hrhd. simpl in Hrhd.
eapply post_bind.
- apply (atomic_eq_local_bal m sl rhd (cntS (delete s ss)) (ephS (delete s ss)) (cntH hs));
    [apply counts_ok_lists|].
  eapply balanced_ext; [exact Hinv|]. sum_ext.
- intros [[r sl'] m1] Hm1. simpl in *. eapply balanced_ext; [exact Hm1|]. sum_ext.
Qed.

Lemma step_Swap s t : post (step (Swap s t) (World m ss hs hi tk)) inv.
Proof using Hinv.
cbn [step]. eapply post_bind; [apply obj_at_post; intros sl Hsl; exact Hsl|].
intros sl Hsl. simpl in Hsl.
eapply post_bind; [apply obj_at_post; intros other Hother; exact Hother|].
intros other Hother. simpl in Hother.
rewrite swap_seq. simpl.
assert (Hmid : ∃ x, <[s:=Atomic (xxx other)]> ss !! t = Some x ∧
                    ∀ a, oneS x a = oneS other a ∧ ephOne x a = ephOne other a).
{ destruct (decide (s = t)) as [->|Hne].
  - exists (Atomic (xxx other)). split; [|done].
    apply list_lookup_insert_eq. by eapply lookup_lt_Some.
  - exists other. split; [by rewrite list_lookup_insert_ne|]. done. }
destruct Hmid as (x & Hx & Hsum).
eapply balanced_ext; [exact Hinv|].
intros a. destruct (Hsum a) as [H1 H2]. revert H1 H2. generalize a. clear Hsum.
sum_ext; count_simpl.
Qed.

Lemma step_AssignSlotSlot s t :
post (step (AssignSlotSlot s t) (World m ss hs hi tk)) inv.
Proof using Hinv.
cbn [step]. eapply post_bind; [apply obj_at_post; intros src Hsrc; exact Hsrc|].
intros src Hsrc. simpl in Hsrc.
eapply post_bind.
{ apply (atomic_copy_bal m src (cntS (delete t ss)) (ephS (delete t ss)) (cntH hs));
    [apply counts_ok_lists|].
  eapply balanced_ext; [exact Hinv|]. sum_ext. }
intros [[temp src'] m1] Hm1. cbv zeta. simpl in Hm1.
eapply post_bind; [apply obj_at_post; intros sl Hsl; exact Hsl|].
intros sl Hsl. simpl in Hsl.
rewrite swap_seq. simpl.
eapply post_bind.
{ apply (atomic_dtor_bal m1 (Atomic (xxx sl))
           (cntS (<[s:=Atomic (xxx temp)]> (<[t:=src']> ss)))
           (ephS (<[s:=Atomic (xxx temp)]> (<[t:=src']> ss))) (cntH hs));
    [apply counts_ok_lists|].
  eapply balanced_ext; [exact Hm1|]. sum_ext; count_simpl. }
intros [[] m2] Hm2. exact Hm2.
Qed.

Lemma step_Cas s i d : post (step (Cas s i d) (World m ss hs hi tk)) inv.
Proof using Hinv.
cbn [step]. eapply post_bind; [apply obj_at_post; intros ex Hex; exact Hex|].
intros ex Hex. simpl in Hex.
eapply post_bind; [apply obj_at_post; intros des Hdes; exact Hdes|].
intros des Hdes. simpl in Hdes.
eapply post_bind.
{ apply (local_copy_bal m ex (cntS ss) (ephS ss) (cntH (delete i hs)));
    [apply counts_ok_lists|].
  eapply balanced_ext; [exact Hinv|]. sum_ext. }
intros [cmp m1] Hm1. simpl in Hm1.
eapply post_bind.
{ apply (atomic_copy_bal m1 des (cntS (delete d ss)) (ephS (delete d ss))
           (λ a, oneH cmp a + cntH hs a));
    [apply counts_ok_addH, counts_ok_lists|].
  eapply balanced_ext; [exact Hm1|]. sum_ext. }
intros [[xchg des'] m2] Hm2. cbv zeta. simpl in Hm2.
eapply post_bind; [apply obj_at_post; intros sl Hsl; exact Hsl|].
intros sl Hsl. simpl in Hsl.
rewrite cas_seq.
assert (Hcas : ∃ sl' xchg',
  (if decide (ref_ptr (xxx sl) = refptr cmp)
   then (true, Atomic (xxx xchg), sl) else (false, sl, xchg))
  = (bool_decide (ref_ptr (xxx sl) = refptr cmp), sl', xchg') ∧
  ∀ a, oneS sl' a + oneS xchg' a = oneS sl a + oneS xchg a ∧
       ephOne sl' a + ephOne xchg' a = ephOne sl a + ephOne xchg a).
{ case_decide.
  - exists (Atomic (xxx xchg)), sl. rewrite bool_decide_eq_true_2 by done.
    split; [done|]. intros a. count_simpl.
  - exists sl, xchg. rewrite bool_decide_eq_false_2 by done.
    split; [done|]. intros a. count_simpl. }
destruct Hcas as (sl' & xchg' & -> & Hsum). simpl.
eapply post_bind.
{ apply (atomic_dtor_bal m2 xchg' (cntS (<[s:=sl']> (<[d:=des']> ss)))
           (ephS (<[s:=sl']> (<[d:=des']> ss))) (λ a, oneH cmp a + cntH hs a));
    [apply counts_ok_addH, counts_ok_lists|].
  eapply balanced_ext; [exact Hm2|].
  intros a. destruct (Hsum a) as [H1 H2]. revert H1 H2. generalize a. clear Hsum.
  sum_ext. }
intros [[] m3] Hm3. simpl in Hm3.
eapply post_bind.
{ apply (local_dtor_bal m3 cmp _ _ _ _ _ (counts_ok_lists _ hs) Hm3). }
intros [[] m4] Hm4. exact Hm4.
Qed.
End Steps.

(** Establish, preserve, use. *)
Lemma inv_empty : inv empty_world.
Proof.
  split; simpl.
  - intros a b Hb. by rewrite lookup_empty in Hb.
  - intros a _. repeat split; try done. case_decide; [lia|done].
Qed.

Lemma step_inv o w : inv w → post (step o w) inv.
Proof.
  destruct w as [m ss hs hi tk]. intros Hinv.
  destruct o;
    eauto using step_NewHandle, step_CopyHandle, step_Pin, step_RecycledHandle,
      step_DropHandle, step_AssignHandleObj, step_AssignHandleHandle,
      step_AssignHandleSlot, step_HandleRecycle, step_SetPool, step_NewSlot,
      step_SlotOfHandle, step_CopySlot, step_RecycledSlot, step_DropSlot,
      step_AssignSlotObj, step_AssignSlotHandle, step_AssignSlotSlot,
      step_SlotRecyle, step_Arrow, step_EqSlotHandle, step_Swap, step_Cas.
Qed.

Lemma run_inv ops : ∀ w, inv w → post (run ops w) inv.
Proof.
  induction ops as [|o ops IH]; intros w Hw; [exact Hw|].
  cbn [run]. eapply post_bind; [by apply step_inv|]. exact IH.
Qed.



Lemma cntH_member hs i h a :
  hs !! i = Some h → refptr h = Some a → 1 ≤ cntH hs a.
Proof.
  intros Hi Hp. pose proof (sumZ_delete (λ x, oneH x a) hs i h Hi) as Hd.
  pose proof (sumZ_nonneg (λ x, oneH x a) (delete i hs) (λ x, oneH_nonneg x a)).
  cbv beta in Hd.
  unfold cntH. assert (oneH h a = 1) by (unfold oneH; by rewrite decide_True). lia.
Qed.

Lemma inv_owned w a :
  inv w → 0 < cntS (slots w) a + cntH (handles w) a →
  ∃ b, heap (mach w) !! a = Some b ∧ count b ≠ Refcount 0 0 ∧
       rcount (count b) = cntS (slots w) a ∧
       ecount (count b) + ephS (slots w) a = cntH (handles w) a.
Proof.
  intros Hinv Hown.
  destruct (balanced_owned _ _ _ _ _ _ a Hinv) as (b & ? & ? & ? & ? & ?).
  - intros a'. destruct (counts_ok_lists (slots w) (handles w) a') as (? & ? & _).
    split; assumption.
  - apply cntS_zero_ephS.
  - exact Hown.
  - exists b. done.
Qed.

(** ** The counting invariant *)




(** ** Round trips *)

Lemma local_copy_run m a b :
  heap m !! a = Some b → fits 1 0 (count b) →
  local_copy (Local (Some a)) m =
    inr (Local (Some a),
         upd a (set_count (Refcount (ecount (count b) + 1) (rcount (count b))) b) m).
Proof.
  intros Hb Hfit. unfold local_copy. cbn [refptr].
  rewrite (bind_inr _ _ _ _ _ (adjust_at_ok _ _ _ _ _ Hb Hfit)).
  by replace (rcount (count b) + 0) with (rcount (count b)) by lia.
Qed.

Lemma local_copy_dtor m a b :
  heap m !! a = Some b → fits 1 0 (count b) → in_long (ecount (count b)) →
  count b ≠ Refcount 0 0 →
  ∃ m1, local_copy (Local (Some a)) m = inr (Local (Some a), m1) ∧
        local_dtor (Local (Some a)) m1 = inr (tt, m).
Proof.
  intros Hb Hfit Hl Hnz. eexists. split; [by apply local_copy_run|].
  destruct b as [[e r] p po nx]. unfold set_count. cbn [count ecount rcount ptr pool next] in *.
  destruct Hfit as [_ Hr0].
  rewrite (local_dtor_run _ a _ (upd_lookup _ _ _)).
  - unfold set_count. cbn [count ecount rcount ptr pool next].
    rewrite decide_False by (intros [= ? ?]; apply Hnz; f_equal; lia).
    rewrite upd_upd. replace (e + 1 - 1) with e by lia. by rewrite upd_same.
  - split; cbn [count ecount rcount]; [|done].
    by replace (e + 1 + -1) with e by lia.
Qed.




(** ** Pool control over time *)

(** C10. [setPool] and [getPool] go through the handle's block pointer
    unchecked: on an empty handle both dereference the null pointer. On a
    handle whose block is allocated [setPool] stores the hook in the
    block's pool field and [getPool] reads that field, so a [getPool]
    straight after [setPool p] gives [p]. And in every state a client can
    reach, [getPool] on any of its non-empty handles gives the hook of the
    latest [setPool] made on that block, or null when there was none. *)
Theorem pool_hook_is_last_set ops w :
  run ops empty_world = inr w →
  (∀ m this p,
     match refptr this with
     | None => setPool this p m = inl NullDeref ∧ getPool this m = inl NullDeref
     | Some a =>
         match heap m !! a with
         | Some b =>
             setPool this p m = inr (tt, upd a (set_pool p b) m) ∧
             getPool this m = inr (pool b, m) ∧
             getPool this (upd a (set_pool p b) m) = inr (p, upd a (set_pool p b) m)
         | None => setPool this p m = inl Dangling ∧ getPool this m = inl Dangling
         end
     end) ∧
  (∀ i h a, handles w !! i = Some h → refptr h = Some a →
     getPool h (mach w) = inr (last_set a (hist w), mach w)) ∧
  (∀ i h p, handles w !! i = Some h →
     post (step (SetPool i p) w) (λ w',
       hist w' = note_pool h p (hist w) ∧
       ∀ a, refptr h = Some a → getPool h (mach w') = inr (p, mach w'))).
Proof.
  intros Hrun. pose proof (run_inv ops empty_world inv_empty) as Hinv.
  rewrite Hrun in Hinv. simpl in Hinv. split; [|split].
  - intros m this p. apply pool_access_run.
  - intros i h a Hi Hp.
    pose proof (cntH_member _ _ _ _ Hi Hp) as HH.
    destruct (counts_ok_lists (slots w) (handles w) a) as (HS & _ & _).
    destruct (inv_owned w a Hinv) as (b & Hb & _); [lia|].
    pose proof (pool_access_run (mach w) h None) as Hacc.
    rewrite Hp, Hb in Hacc. destruct Hacc as (_ & -> & _).
    destruct (bal_live _ _ _ _ _ _ Hinv a b Hb) as (_ & _ & -> & _). done.
  - intros i h p Hi. destruct w as [m ss hs hi tk]. cbn [step handles] in *.
    unfold obj_at. rewrite Hi. simpl.
    pose proof (pool_access_run m h p) as Hacc.
    destruct (refptr h) as [a|] eqn:Hp.
    + pose proof (cntH_member _ _ _ _ Hi Hp) as HH.
      destruct (counts_ok_lists ss hs a) as (HS & _ & _).
      destruct (inv_owned _ a Hinv) as (b & Hb & _); [simpl; lia|].
      simpl in Hb. rewrite Hb in Hacc. destruct Hacc as (-> & _ & Hget). simpl.
      split; [done|]. intros a' [= <-]. exact Hget.
    + destruct Hacc as [-> _]. simpl. by right; left.
Qed.

Lemma pool_hook_is_last_set_witness :
  ∃ w,
    run [NewHandle (Some 7%positive); SetPool 0 (Some 3%positive); SetPool 0 (Some 5%positive)]
      empty_world = inr w ∧
    handles w !! 0%nat = Some (Local (Some 1%positive)) ∧
    getPool (Local (Some 1%positive)) (mach w) = inr (Some 5%positive, mach w).
Proof.
  eexists. split; [reflexivity|]. split; [reflexivity|].
  exact (proj1 (proj2 (pool_hook_is_last_set
    [NewHandle (Some 7%positive); SetPool 0 (Some 3%positive); SetPool 0 (Some 5%positive)]
    _ eq_refl)) 0%nat (Local (Some 1%positive)) 1%positive eq_refl eq_refl).
Defined.

(** * Further properties of the code *)

(** ** The CAS loops of the slot under interference *)

Lemma getrefptr_loop_lin fuel : ∀ env cell oldval,
  (cell = oldval ∧ 1 ≤ fuel)%nat ∨ (length env + 2 ≤ fuel)%nat →
  Forall (λ c, in_long (ref_ecount c + 1)) (oldval :: cell :: env) →
  ∃ lin, lin ∈ cell :: env ∧
    getrefptr_loop fuel env cell oldval =
      inr (ref_ptr lin, Ref (ref_ecount lin + 1) (ref_ptr lin)).
Proof.
  induction fuel as [|fuel IH]; intros env cell oldval Hfuel Hfit.
  { destruct Hfuel as [[_ ?]|?]; lia. }
  pose proof Hfit as Hfit0.
  apply Forall_cons in Hfit as [Ho Hfit].
  cbn [getrefptr_loop]. rewrite (add_long_inr _ _ Ho). simpl.
  destruct (decide (cell = oldval)) as [->|Hne].
  - rewrite atomic_cas_hit. exists oldval. split; [apply list_elem_of_here|done].
  - rewrite atomic_cas_miss by done.
    destruct (IH (tail env) (hd cell env) cell) as (lin & Hin & Heq).
    + destruct Hfuel as [[? _]|Hf]; [done|].
      destruct env as [|c env]; simpl in *; [left; split; [done|lia] | right; lia].
    + apply Forall_cons. split; [by apply Forall_cons in Hfit as [? _]|].
      apply Forall_forall. intros x Hx. apply hd_tail_subseteq in Hx.
      rewrite Forall_forall in Hfit. by apply Hfit.
    + exists lin. split; [by apply hd_tail_subseteq|done].
Qed.

(** X1. Whatever other threads store into the slot between the attempts
    of [getrefptr], once they stop the pin returns: it hands out the block
    pointer of a pair [lin] the slot really held at a CAS attempt, and the
    pair it leaves is [lin] with one more ephemeral count and the same
    block pointer. *)
Theorem getrefptr_returns_linearized_pointer fuel env cell oldval :
  (length env + 2 ≤ fuel)%nat →
  Forall (λ c, in_long (ref_ecount c + 1)) (oldval :: cell :: env) →
  ∃ lin, lin ∈ cell :: env ∧
    getrefptr_loop fuel env cell oldval =
      inr (ref_ptr lin, Ref (ref_ecount lin + 1) (ref_ptr lin)).
Proof. intros Hfuel Hfit. apply getrefptr_loop_lin; auto. Qed.

Lemma getrefptr_returns_linearized_pointer_witness :
  ∃ lin, lin ∈ [Ref 1 (Some 2%positive); Ref 0 (Some 3%positive)] ∧
    getrefptr_loop 3 [Ref 0 (Some 3%positive)] (Ref 1 (Some 2%positive)) (Ref 0 (Some 2%positive)) =
      inr (ref_ptr lin, Ref (ref_ecount lin + 1) (ref_ptr lin)).
Proof.
  apply (getrefptr_returns_linearized_pointer 3 [Ref 0 (Some 3%positive)]
           (Ref 1 (Some 2%positive)) (Ref 0 (Some 2%positive))).
  - simpl. lia.
  - repeat constructor; vm_compute; discriminate.
Defined.

Lemma swap_loop_lin fuel : ∀ env cell temp objxxx,
  (cell = temp ∧ 1 ≤ fuel)%nat ∨ (length env + 2 ≤ fuel)%nat →
  ∃ lin, lin ∈ cell :: env ∧ swap_loop fuel env cell temp objxxx = inr (objxxx, lin).
Proof.
  induction fuel as [|fuel IH]; intros env cell temp objxxx Hfuel.
  { destruct Hfuel as [[_ ?]|?]; lia. }
  cbn [swap_loop]. destruct (decide (cell = temp)) as [->|Hne].
  - rewrite atomic_cas_hit. exists temp. split; [apply list_elem_of_here|].
    by destruct temp.
  - rewrite atomic_cas_miss by done.
    destruct (IH (tail env) (hd cell env) cell objxxx) as (lin & Hin & Heq).
    + destruct Hfuel as [[? _]|Hf]; [done|].
      destruct env as [|c env]; simpl in *; [left; split; [done|lia] | right; lia].
    + exists lin. split; [by apply hd_tail_subseteq|done].
Qed.

(** X2. [swap] is an exchange even under interference: once other threads
    stop writing the slot, the loop ends with the caller's pair in the
    slot and, in the caller's object, a pair [lin] that the slot really
    held at a CAS attempt; no pair is lost or made up. *)
Theorem swap_exchanges_pairs fuel env cell temp objxxx :
  (length env + 2 ≤ fuel)%nat →
  ∃ lin, lin ∈ cell :: env ∧ swap_loop fuel env cell temp objxxx = inr (objxxx, lin).
Proof. intros Hfuel. apply swap_loop_lin. by right. Qed.

Lemma swap_exchanges_pairs_witness :
  ∃ lin, lin ∈ [Ref 1 (Some 2%positive); Ref 2 (Some 2%positive)] ∧
    swap_loop 3 [Ref 2 (Some 2%positive)] (Ref 1 (Some 2%positive)) (Ref 0 (Some 2%positive))
      (Ref 0 (Some 5%positive)) = inr (Ref 0 (Some 5%positive), lin).
Proof.
  apply (swap_exchanges_pairs 3 [Ref 2 (Some 2%positive)] (Ref 1 (Some 2%positive))
           (Ref 0 (Some 2%positive)) (Ref 0 (Some 5%positive))).
  simpl. lia.
Defined.

(** ** Conversions and assignments *)

Lemma atomic_of_local_run m a b :
  heap m !! a = Some b → fits 0 1 (count b) →
  atomic_of_local (Local (Some a)) m =
    inr (Atomic (Ref 0 (Some a)),
         upd a (set_count (Refcount (ecount (count b)) (rcount (count b) + 1)) b) m).
Proof.
  intros Hb Hfit. unfold atomic_of_local. cbn [refptr].
  rewrite (bind_inr _ _ _ _ _ (adjust_at_ok _ _ _ _ _ Hb Hfit)).
  by replace (ecount (count b) + 0) with (ecount (count b)) by lia.
Qed.

(** X3. Making a slot from a handle and pinning that slot gives back a
    handle on the same block: the two handles compare equal, the block
    has gained exactly the slot's reference, and the slot has one
    ephemeral count handed out. *)
Theorem slot_of_handle_pins_back m h a b :
  refptr h = Some a → heap m !! a = Some b → fits 0 1 (count b) →
  ∃ sl m1 h' sl',
    atomic_of_local h m = inr (sl, m1) ∧
    local_of_atomic sl m1 = inr ((h', sl'), m1) ∧
    local_eq h' h = true ∧
    count <$> heap m1 !! a = Some (Refcount (ecount (count b)) (rcount (count b) + 1)) ∧
    xxx sl' = Ref 1 (Some a).
Proof.
  intros Hp Hb Hfit. destruct h as [p]. simpl in Hp. subst p.
  eexists _, _, _, _. split; [by apply atomic_of_local_run|].
  split; [apply local_of_atomic_run; vm_compute; split; discriminate|].
  cbn [xxx ref_ptr ref_ecount]. split; [|split; [|done]].
  - unfold local_eq. by rewrite bool_decide_eq_true_2.
  - by rewrite upd_lookup.
Qed.

Lemma slot_of_handle_pins_back_witness :
  ∃ sl m1 h' sl',
    atomic_of_local (Local (Some 1%positive)) sample_owned = inr (sl, m1) ∧
    local_of_atomic sl m1 = inr ((h', sl'), m1) ∧
    local_eq h' (Local (Some 1%positive)) = true ∧
    count <$> heap m1 !! 1%positive = Some (Refcount 0 (1 + 1)) ∧
    xxx sl' = Ref 1 (Some 1%positive).
Proof.
  apply (slot_of_handle_pins_back sample_owned (Local (Some 1%positive)) 1%positive
           (Block (Refcount 0 1) (Some 9%positive) None None)).
  - reflexivity.
  - reflexivity.
  - split; vm_compute; split; discriminate.
Defined.

(** X4. Assigning a handle to itself changes nothing: the temporary copy
    adds one ephemeral count and its destruction takes it off again, so
    the free store is as before and nothing is freed or recycled. *)
Theorem handle_self_assignment_is_identity m a b :
  heap m !! a = Some b → fits 1 0 (count b) → in_long (ecount (count b)) →
  count b ≠ Refcount 0 0 →
  local_assign_local (Local (Some a)) (Local (Some a)) m = inr (Local (Some a), m).
Proof.
  intros Hb Hfit Hl Hnz.
  destruct (local_copy_dtor m a b Hb Hfit Hl Hnz) as (m1 & Hcopy & Hdtor).
  unfold local_assign_local. rewrite (bind_inr _ _ _ _ _ Hcopy).
  unfold local_swap. cbn [refptr]. by rewrite (bind_inr _ _ _ _ _ Hdtor).
Qed.

Lemma handle_self_assignment_is_identity_witness :
  local_assign_local (Local (Some 1%positive)) (Local (Some 1%positive)) sample_owned
  = inr (Local (Some 1%positive), sample_owned).
Proof.
  apply (handle_self_assignment_is_identity sample_owned 1%positive
           (Block (Refcount 0 1) (Some 9%positive) None None)).
  - reflexivity.
  - split; vm_compute; split; discriminate.
  - vm_compute; split; discriminate.
  - discriminate.
Defined.

(** X5. Assigning another handle over the last owner of a block: the
    source's block gains one ephemeral count, the handle now refers to it,
    and the old block, which has no hook, has its payload destructed and
    its storage freed in the same call. *)
Theorem handle_assignment_releases_old_block m a a' b b' p :
  a ≠ a' →
  heap m !! a = Some b → count b = Refcount 1 0 → pool b = None → ptr b = Some p →
  heap m !! a' = Some b' → fits 1 0 (count b') →
  local_assign_local (Local (Some a)) (Local (Some a')) m =
    inr (Local (Some a'),
         Machine
           (delete a (<[a':=set_count (Refcount (ecount (count b') + 1) (rcount (count b'))) b']>
                        (heap m)))
           (brk m) (log m ++ [EvDelete p; EvFree a])).
Proof.
  intros Hne Hb Hc Hpool Hptr Hb' Hfit.
  unfold local_assign_local. rewrite (bind_inr _ _ _ _ _ (local_copy_run m a' b' Hb' Hfit)).
  unfold local_swap. cbn [refptr].
  set (m1 := upd a' _ m).
  assert (Hb1 : heap m1 !! a = Some b).
  { unfold m1, upd. simpl. by rewrite lookup_insert_ne. }
  assert (Hd : local_dtor (Local (Some a)) m1 =
               inr (tt, Machine (delete a (heap m1)) (brk m1) (log m1 ++ [EvDelete p; EvFree a]))).
  { rewrite (local_dtor_run m1 a b Hb1); [|rewrite Hc; split; vm_compute; split; discriminate].
    simpl. rewrite decide_True by done.
    unfold spec_destroy_or_recycle, set_count. cbn [pool ptr]. rewrite Hpool, Hptr.
    unfold upd. cbn [heap brk log]. by rewrite delete_insert_eq. }
  by rewrite (bind_inr _ _ _ _ _ Hd).
Qed.

Lemma handle_assignment_releases_old_block_witness :
  local_assign_local (Local (Some 2%positive)) (Local (Some 1%positive)) sample_two =
    inr (Local (Some 1%positive),
         Machine
           (delete 2%positive
              (<[1%positive:=set_count (Refcount (0 + 1) 1)
                               (Block (Refcount 0 1) (Some 9%positive) None None)]>
                 (heap sample_two)))
           (brk sample_two) (log sample_two ++ [EvDelete 8%positive; EvFree 2%positive])).
Proof.
  apply (handle_assignment_releases_old_block sample_two 2%positive 1%positive
           (Block (Refcount 1 0) (Some 8%positive) None None)
           (Block (Refcount 0 1) (Some 9%positive) None None) 8%positive).
  - discriminate.
  - reflexivity.
  - reflexivity.
  - reflexivity.
  - reflexivity.
  - reflexivity.
  - split; vm_compute; split; discriminate.
Defined.

(** X6. A block that sits in a pool can be re-installed and released
    again without any allocation: the recycle constructor followed by the
    destructor leaves the free store exactly as it was, with the payload
    still in place, and calls the block's hook once more; this holds for
    the handle pair and for the slot pair of constructor and destructor. *)
Theorem recycle_roundtrip_allocates_nothing m a b f :
  heap m !! a = Some b → count b = Refcount 0 0 → pool b = Some f →
  (∃ h m1, local_recycled (Some a) m = inr (h, m1) ∧ brk m1 = brk m ∧
           local_dtor h m1 = inr (tt, Machine (heap m) (brk m) (log m ++ [EvPool f a]))) ∧
  (∃ s m1, atomic_recycled (Some a) m = inr (s, m1) ∧ brk m1 = brk m ∧
           atomic_dtor s m1 = inr (tt, Machine (heap m) (brk m) (log m ++ [EvPool f a]))).
Proof.
  intros Hb Hc Hpool. destruct b as [c p po nx]. simpl in Hc, Hpool. subst c po.
  split.
  - eexists _, _. split; [by apply local_recycled_run|]. split; [done|].
    rewrite (local_dtor_run _ a _ (upd_lookup _ _ _));
      [|split; vm_compute; split; discriminate].
    unfold set_count. cbn [count ecount rcount ptr pool next].
    rewrite decide_True by done.
    unfold spec_destroy_or_recycle, upd. cbn [pool heap brk log].
    rewrite !insert_insert_eq. by rewrite insert_id.
  - eexists _, _. split; [by apply atomic_recycled_run|]. split; [done|].
    rewrite (atomic_dtor_run _ a _ 0 (upd_lookup _ _ _));
      [|split; vm_compute; split; discriminate].
    unfold set_count. cbn [count ecount rcount ptr pool next].
    rewrite decide_True by done.
    unfold spec_destroy_or_recycle, upd. cbn [pool heap brk log].
    rewrite !insert_insert_eq. by rewrite insert_id.
Qed.

Lemma recycle_roundtrip_allocates_nothing_witness :
  (∃ h m1, local_recycled (Some 1%positive) sample_pooled = inr (h, m1) ∧
           brk m1 = brk sample_pooled ∧
           local_dtor h m1 =
             inr (tt, Machine (heap sample_pooled) (brk sample_pooled)
                        (log sample_pooled ++ [EvPool 4%positive 1%positive]))) ∧
  (∃ s m1, atomic_recycled (Some 1%positive) sample_pooled = inr (s, m1) ∧
           brk m1 = brk sample_pooled ∧
           atomic_dtor s m1 =
             inr (tt, Machine (heap sample_pooled) (brk sample_pooled)
                        (log sample_pooled ++ [EvPool 4%positive 1%positive]))).
Proof.
  apply (recycle_roundtrip_allocates_nothing sample_pooled 1%positive
           (Block (Refcount 0 0) (Some 9%positive) (Some 4%positive) None) 4%positive);
    reflexivity.
Defined.

(** ** What every client program can rely on *)







(** ** What the calls return *)

Lemma bind_M_inv {A B} (c : M A) (f : A → M B) m r :
  (c ≫= f) m = inr r → ∃ x m1, c m = inr (x, m1) ∧ f x m1 = inr r.
Proof.
  unfold mbind, M_bind. destruct (c m) as [e|[x m1]]; [done|]. eauto.
Qed.

Lemma local_of_atomic_inv src m h src' m' :
  local_of_atomic src m = inr ((h, src'), m') →
  h = Local (ref_ptr (xxx src)) ∧
  src' = Atomic (Ref (ref_ecount (xxx src) + 1) (ref_ptr (xxx src))) ∧ m' = m.
Proof.
  destruct (decide (in_long (ref_ecount (xxx src) + 1))) as [He|He].
  - rewrite (local_of_atomic_run m src He). by intros [= <- <- <-].
  - unfold local_of_atomic, mbind, M_bind, lift. by rewrite (getrefptr_overflow _ He).
Qed.

Lemma local_copy_inv src m h m' :
  local_copy src m = inr (h, m') → h = Local (refptr src).
Proof.
  unfold local_copy. destruct src as [[a|]]; cbn [refptr].
  - intros H. apply bind_M_inv in H as (x & m1 & _ & H). by injection H as <- _.
  - by intros [= <- _].
Qed.

Lemma atomic_copy_inv src m n src' m' :
  atomic_copy src m = inr ((n, src'), m') →
  n = Atomic (Ref 0 (ref_ptr (xxx src))) ∧
  src' = Atomic (Ref (ref_ecount (xxx src) + 1) (ref_ptr (xxx src))).
Proof.
  unfold atomic_copy, mbind at 1, M_bind at 1, lift.
  destruct (decide (in_long (ref_ecount (xxx src) + 1))) as [He|He].
  - rewrite (getrefptr_run _ He). destruct (ref_ptr (xxx src)) as [a|].
    + intros H. apply bind_M_inv in H as (x & m1 & _ & H). by injection H as <- <- _.
    + by intros [= <- <- _].
  - by rewrite (getrefptr_overflow _ He).
Qed.

Lemma atomic_of_obj_inv obj m sl m' :
  atomic_of_obj obj m = inr (sl, m') → ref_ecount (xxx sl) = 0 ∧
  (obj = None → sl = Atomic (Ref 0 None) ∧ m' = m).
Proof.
  destruct obj as [p|].
  - rewrite atomic_of_obj_run. by intros [= <- _].
  - by intros [= <- <-].
Qed.

Lemma atomic_of_local_inv src m sl m' :
  atomic_of_local src m = inr (sl, m') → sl = Atomic (Ref 0 (refptr src)).
Proof.
  unfold atomic_of_local. destruct src as [[a|]]; cbn [refptr].
  - intros H. apply bind_M_inv in H as (x & m1 & _ & H). by injection H as <- _.
  - by intros [= <- _].
Qed.

Lemma atomic_recycled_inv src m sl m' :
  atomic_recycled src m = inr (sl, m') → sl = Atomic (Ref 0 src).
Proof.
  unfold atomic_recycled. destruct src as [a|].
  - intros H. apply bind_M_inv in H as (b & m1 & _ & H).
    apply bind_M_inv in H as (x & m2 & _ & H). by injection H as <- _.
  - by intros [= <- _].
Qed.

Lemma atomic_replace_inv this temp m r m' :
  (lift (swap this temp) ≫= λ '(this', temp'), atomic_dtor temp';; mret this') m = inr (r, m') →
  r = Atomic (xxx temp).
Proof.
  unfold mbind at 1, M_bind at 1, lift. rewrite swap_seq.
  intros H. apply bind_M_inv in H as (x & m1 & _ & H). by injection H as <- _.
Qed.

Lemma atomic_assign_obj_inv this obj m r m' :
  atomic_assign_obj this obj m = inr (r, m') → ref_ecount (xxx r) = 0.
Proof.
  unfold atomic_assign_obj. intros H. apply bind_M_inv in H as (temp & m1 & Ht & H).
  apply atomic_replace_inv in H as ->. cbn [xxx].
  by apply atomic_of_obj_inv in Ht as [? _].
Qed.

Lemma atomic_assign_local_inv this src m r m' :
  atomic_assign_local this src m = inr (r, m') → r = Atomic (Ref 0 (refptr src)).
Proof.
  unfold atomic_assign_local. intros H. apply bind_M_inv in H as (temp & m1 & Ht & H).
  apply atomic_replace_inv in H as ->. by apply atomic_of_local_inv in Ht as ->.
Qed.

Lemma recyle_inv this src m r m' :
  recyle this src m = inr (r, m') → r = Atomic (Ref 0 src).
Proof.
  unfold recyle. intros H. apply bind_M_inv in H as (temp & m1 & Ht & H).
  apply atomic_replace_inv in H as ->. by apply atomic_recycled_inv in Ht as ->.
Qed.

Lemma local_assign_atomic_inv this src m h src' m' :
  local_assign_atomic this src m = inr ((h, src'), m') →
  h = Local (ref_ptr (xxx src)) ∧
  src' = Atomic (Ref (ref_ecount (xxx src) + 1) (ref_ptr (xxx src))).
Proof.
  unfold local_assign_atomic. intros H. apply bind_M_inv in H as ([temp s1] & m1 & Ht & H).
  apply local_of_atomic_inv in Ht as (-> & -> & ->).
  unfold local_swap in H. cbn beta iota in H.
  apply bind_M_inv in H as (x & m2 & _ & H). by injection H as <- <- _.
Qed.

Lemma atomic_arrow_inv this m p this' m' :
  atomic_arrow this m = inr ((p, this'), m') →
  this' = Atomic (Ref (ref_ecount (xxx this) + 1) (ref_ptr (xxx this))).
Proof.
  unfold atomic_arrow. intros H. apply bind_M_inv in H as ([temp s1] & m1 & Ht & H).
  apply local_of_atomic_inv in Ht as (-> & -> & ->).
  apply bind_M_inv in H as (q & m2 & _ & H).
  apply bind_M_inv in H as (x & m3 & _ & H). by injection H as _ <- _.
Qed.

Lemma atomic_eq_local_inv this rhd m r this' m' :
  atomic_eq_local this rhd m = inr ((r, this'), m') →
  r = bool_decide (ref_ptr (xxx this) = refptr rhd) ∧
  this' = Atomic (Ref (ref_ecount (xxx this) + 1) (ref_ptr (xxx this))).
Proof.
  unfold atomic_eq_local. intros H. apply bind_M_inv in H as ([temp s1] & m1 & Ht & H).
  apply local_of_atomic_inv in Ht as (-> & -> & ->).
  apply bind_M_inv in H as (x & m3 & _ & H). by injection H as <- <- _.
Qed.

#[local] Arguments local_of_obj : simpl never.
#[local] Arguments local_copy : simpl never.
#[local] Arguments local_recycled : simpl never.
#[local] Arguments local_dtor : simpl never.
#[local] Arguments local_of_atomic : simpl never.
#[local] Arguments local_assign_obj : simpl never.
#[local] Arguments local_assign_local : simpl never.
#[local] Arguments local_assign_atomic : simpl never.
#[local] Arguments recycle : simpl never.
#[local] Arguments setPool : simpl never.
#[local] Arguments atomic_of_obj : simpl never.
#[local] Arguments atomic_of_local : simpl never.
#[local] Arguments atomic_copy : simpl never.
#[local] Arguments atomic_recycled : simpl never.
#[local] Arguments atomic_dtor : simpl never.
#[local] Arguments atomic_assign_obj : simpl never.
#[local] Arguments atomic_assign_local : simpl never.
#[local] Arguments recyle : simpl never.
#[local] Arguments atomic_arrow : simpl never.
#[local] Arguments atomic_eq_local : simpl never.
#[local] Arguments from_pool : simpl never.
#[local] Arguments swap : simpl never.
#[local] Arguments cas : simpl never.
#[local] Arguments upd : simpl never.
#[local] Arguments set_count : simpl never.

Ltac step_cases H :=
  cbn [step] in H; unfold mbind, result_bind, mret, result_ret, obj_at in H;
  rewrite ?swap_seq, ?cas_seq in H;
  repeat (case_match; simplify_eq/=);
  repeat match goal with
    | E : local_of_atomic _ _ = inr _ |- _ => apply local_of_atomic_inv in E as (? & ? & ?)
    | E : atomic_copy _ _ = inr _ |- _ => apply atomic_copy_inv in E as (? & ?)
    | E : atomic_of_obj _ _ = inr _ |- _ => apply atomic_of_obj_inv in E as (? & _)
    | E : atomic_of_local _ _ = inr _ |- _ => apply atomic_of_local_inv in E
    | E : atomic_recycled _ _ = inr _ |- _ => apply atomic_recycled_inv in E
    | E : atomic_assign_obj _ _ _ = inr _ |- _ => apply atomic_assign_obj_inv in E
    | E : atomic_assign_local _ _ _ = inr _ |- _ => apply atomic_assign_local_inv in E
    | E : recyle _ _ _ = inr _ |- _ => apply recyle_inv in E
    | E : local_assign_atomic _ _ _ = inr _ |- _ => apply local_assign_atomic_inv in E as (? & ?)
    | E : atomic_arrow _ _ = inr _ |- _ => apply atomic_arrow_inv in E
    | E : atomic_eq_local _ _ _ = inr _ |- _ => apply atomic_eq_local_inv in E as (? & ?)
    | E : local_copy _ _ = inr _ |- _ => apply local_copy_inv in E
    | E : swap _ _ = inr _ |- _ => rewrite swap_seq in E; simplify_eq
    | E : cas _ _ _ = inr _ |- _ => rewrite cas_seq in E; case_decide; simplify_eq
    end;
  simplify_eq/=.

Lemma Forall_lookup_at {A} (P : A → Prop) (l : list A) i x :
  Forall P l → l !! i = Some x → P x.
Proof. intros Hl Hi. by eapply (proj1 (Forall_lookup P l) Hl). Qed.

Lemma step_eph_nonneg o w w' :
  step o w = inr w' →
  Forall (λ s, 0 ≤ ref_ecount (xxx s)) (slots w) →
  Forall (λ s, 0 ≤ ref_ecount (xxx s)) (slots w').
Proof.
  destruct w as [m ss hs hi tk]. intros H Hss. cbn [slots] in Hss.
  destruct o; step_cases H;
    repeat match goal with
    | E : ss !! _ = Some _ |- _ => apply (Forall_lookup_at _ _ _ _ Hss) in E
    | E : <[_:=_]> ss !! _ = Some ?x |- _ =>
        apply (Forall_lookup_at (λ s, 0 ≤ ref_ecount (xxx s))) in E;
          [|apply Forall_insert; [exact Hss|simpl; lia]]
    end;
    cbn [xxx ref_ecount] in *;
    repeat first [ done | apply Forall_insert | apply Forall_app_2 | apply Forall_delete
                 | apply Forall_cons_2 | apply Forall_nil_2 | (simpl; lia) ].
Qed.

(** X9. The ephemeral count of a slot is never negative: every slot of
    every state a client can reach carries a count of at least 0, since
    slots are born with 0, a pin adds one, and [swap] and [cas] only move
    whole pairs between slots. *)
Theorem eph_out_never_negative ops w :
  run ops empty_world = inr w →
  Forall (λ s, 0 ≤ ref_ecount (xxx s)) (slots w).
Proof.
  assert (Hgen : ∀ w0, Forall (λ s, 0 ≤ ref_ecount (xxx s)) (slots w0) →
                       run ops w0 = inr w →
                       Forall (λ s, 0 ≤ ref_ecount (xxx s)) (slots w)).
  { induction ops as [|o ops IH]; intros w0 H0 Hrun.
    - by injection Hrun as <-.
    - cbn [run] in Hrun. destruct (step o w0) as [f|w1] eqn:Hstep; [done|].
      apply (IH w1); [by eapply step_eph_nonneg|exact Hrun]. }
  intros Hrun. apply (Hgen empty_world); [constructor|exact Hrun].
Qed.

Lemma eph_out_never_negative_witness :
  ∃ w, run [NewSlot (Some 7%positive); Pin 0; Arrow 0] empty_world = inr w ∧
       Forall (λ s, 0 ≤ ref_ecount (xxx s)) (slots w).
Proof.
  eexists. split; [reflexivity|].
  exact (eph_out_never_negative [NewSlot (Some 7%positive); Pin 0; Arrow 0] _ eq_refl).
Defined.











(** X11. Assigning a slot to itself keeps its block and settles its
    account: the slot ends with an ephemeral count of 0 and the count it
    carried before is added to the block's ephemeral count; the block's
    reference count is as before and nothing is freed or recycled. *)
Theorem slot_self_assignment_settles_eph w s ec a b :
  slots w !! s = Some (Atomic (Ref ec (Some a))) →
  heap (mach w) !! a = Some b →
  in_long (ec + 1) → fits (-1) 1 (count b) →
  in_long (ecount (count b) + ec) → in_long (rcount (count b)) →
  rcount (count b) ≠ 0 →
  step (AssignSlotSlot s s) w =
    inr (World
           (upd a (set_count (Refcount (ecount (count b) + ec) (rcount (count b))) b) (mach w))
           (<[s:=Atomic (Ref 0 (Some a))]> (slots w)) (handles w) (hist w) (taken w)).
Proof.
  destruct w as [m ss hs hi tk]. cbn [slots mach handles hist taken].
  intros Hs Hb He Hfit Hl1 Hl2 Hr.
  assert (Hlen : (s < length ss)%nat) by (by eapply lookup_lt_Some).
  cbn [step]. unfold obj_at. rewrite Hs. simpl.
  rewrite (atomic_copy_run m (Atomic (Ref ec (Some a))) a b He eq_refl Hb Hfit).
  simpl. rewrite list_lookup_insert_eq by done. simpl.
  rewrite swap_seq. simpl.
  set (b1 := set_count (Refcount (ecount (count b) - 1) (rcount (count b) + 1)) b).
  assert (Hc1 : count b1 = Refcount (ecount (count b) - 1) (rcount (count b) + 1)) by done.
  rewrite (atomic_dtor_run (upd a b1 m) a b1 (ec + 1) (upd_lookup _ _ _)).
  - rewrite Hc1. cbn [ecount rcount]. rewrite decide_False by lia. simpl.
    rewrite upd_upd, list_insert_insert_eq.
    replace (ecount (count b) - 1 + (ec + 1)) with (ecount (count b) + ec) by lia.
    replace (rcount (count b) + 1 - 1) with (rcount (count b)) by lia.
    done.
  - rewrite Hc1. split; cbn [ecount rcount].
    + by replace (ecount (count b) - 1 + (ec + 1)) with (ecount (count b) + ec) by lia.
    + by replace (rcount (count b) + 1 + -1) with (rcount (count b)) by lia.
Qed.

Lemma slot_self_assignment_settles_eph_witness :
  step (AssignSlotSlot 0 0) sample_world =
    inr (World
           (upd 1%positive
              (set_count (Refcount (0 + 1) 1) (Block (Refcount 0 1) (Some 9%positive) None None))
              (mach sample_world))
           (<[0%nat:=Atomic (Ref 0 (Some 1%positive))]> (slots sample_world))
           (handles sample_world) (hist sample_world) (taken sample_world)).
Proof.
  apply (slot_self_assignment_settles_eph sample_world 0%nat 1 1%positive
           (Block (Refcount 0 1) (Some 9%positive) None None)).
  - reflexivity.
  - reflexivity.
  - vm_compute; split; discriminate.
  - split; vm_compute; split; discriminate.
  - vm_compute; split; discriminate.
  - vm_compute; split; discriminate.
  - discriminate.
Defined.

(** ** Comparisons *)

(** X12. Comparing a slot is not a read-only operation. Against a handle
    or a non-null payload the slot is pinned and the temporary released:
    the answer is whether the block (or its payload) is the same, and
    afterwards the slot has one more ephemeral count and the block one
    less, with nothing freed. Against null, and when the handle is the
    left operand, only the slot's pointer is inspected and no counter
    moves. *)
Theorem slot_comparison_moves_counters m this rhd a b :
  ref_ptr (xxx this) = Some a → heap m !! a = Some b →
  in_long (ref_ecount (xxx this) + 1) → fits (-1) 0 (count b) → rcount (count b) ≠ 0 →
  let this' := Atomic (Ref (ref_ecount (xxx this) + 1) (Some a)) in
  let m' := upd a (set_count (Refcount (ecount (count b) - 1) (rcount (count b))) b) m in
  atomic_eq_local this rhd m = inr ((bool_decide (Some a = refptr rhd), this'), m') ∧
  (∀ o, atomic_eq_obj this (Some o) m = inr ((bool_decide (Some o = ptr b), this'), m')) ∧
  atomic_eq_obj this None m = inr ((false, this), m) ∧
  local_eq_atomic rhd this = bool_decide (refptr rhd = Some a).
Proof.
  intros Hp Hb He Hfit Hr this' m'.
  assert (Hpin : local_of_atomic this m = inr ((Local (Some a), this'), m)).
  { rewrite (local_of_atomic_run m this He). by rewrite Hp. }
  assert (Hd : local_dtor (Local (Some a)) m = inr (tt, m')).
  { rewrite (local_dtor_run m a b Hb Hfit). cbv zeta.
    rewrite decide_False; [done|]. intros Hc. rewrite Hc in Hr. done. }
  split; [|split; [|split]].
  - unfold atomic_eq_local. rewrite (bind_inr _ _ _ _ _ Hpin).
    by rewrite (bind_inr _ _ _ _ _ Hd).
  - intros o. unfold atomic_eq_obj. rewrite (bind_inr _ _ _ _ _ Hpin).
    assert (Hget : get (Local (Some a)) m = inr (ptr b, m)).
    { unfold get. cbn [refptr]. by rewrite (bind_inr _ _ _ _ _ (load_some _ _ _ Hb)). }
    assert (Heq : local_eq_obj (Local (Some a)) (Some o) m
                  = inr (bool_decide (Some o = ptr b), m)).
    { unfold local_eq_obj. by rewrite (bind_inr _ _ _ _ _ Hget). }
    rewrite (bind_inr _ _ _ _ _ Heq). by rewrite (bind_inr _ _ _ _ _ Hd).
  - unfold atomic_eq_obj. cbn [mret M_ret]. by rewrite Hp.
  - unfold local_eq_atomic. by rewrite Hp.
Qed.

Lemma slot_comparison_moves_counters_witness :
  atomic_eq_local (Atomic (Ref 0 (Some 1%positive))) (Local (Some 1%positive)) sample_owned =
    inr ((bool_decide (Some 1%positive = refptr (Local (Some 1%positive))),
          Atomic (Ref (0 + 1) (Some 1%positive))),
         upd 1%positive
           (set_count (Refcount (0 - 1) 1) (Block (Refcount 0 1) (Some 9%positive) None None))
           sample_owned).
Proof.
  refine (proj1 (slot_comparison_moves_counters sample_owned (Atomic (Ref 0 (Some 1%positive)))
            (Local (Some 1%positive)) 1%positive
            (Block (Refcount 0 1) (Some 9%positive) None None) eq_refl eq_refl _ _ _)).
  - vm_compute; split; discriminate.
  - split; vm_compute; split; discriminate.
  - discriminate.
Defined.

(** ** The payload pointer is never rewritten *)

Lemma extends_refl m : extends m m.
Proof.
  split; [lia|]. split; [exists []; by rewrite app_nil_r|]. intros a b' Hb _. eauto.
Qed.

Lemma extends_trans m1 m2 m3 : extends m1 m2 → extends m2 m3 → extends m1 m3.
Proof.
  intros (Hb1 & [l1 Hl1] & H1) (Hb2 & [l2 Hl2] & H2). split; [lia|]. split.
  - exists (l1 ++ l2). by rewrite Hl2, Hl1, app_assoc.
  - intros a b3 Hb3 Hlt. destruct (H2 a b3 Hb3) as (b2 & Hb2' & Hp2); [lia|].
    destruct (H1 a b2 Hb2' Hlt) as (b1 & Hb1' & Hp1). exists b1. split; [done|congruence].
Qed.

Lemma stable_ret {A} (x : A) : stable (mret x).
Proof. intros m y m' [= <- <-]. apply extends_refl. Qed.

Lemma stable_fail {A} e : stable (@fail A e).
Proof. intros m y m' H. discriminate. Qed.

Lemma stable_lift {A} (r : result A) : stable (lift r).
Proof. intros m y m' H. unfold lift in H. destruct r; simplify_eq. apply extends_refl. Qed.

Lemma stable_bind {A B} (c : M A) (f : A → M B) :
  stable c → (∀ x, stable (f x)) → stable (c ≫= f).
Proof.
  intros Hc Hf m y m' H. apply bind_M_inv in H as (x & m1 & H1 & H2).
  eapply extends_trans; [exact (Hc _ _ _ H1)|exact (Hf _ _ _ _ H2)].
Qed.

Lemma stable_load a : stable (load a).
Proof.
  intros m y m' H. unfold load in H. destruct (heap m !! a); simplify_eq. apply extends_refl.
Qed.

Lemma stable_emit e : stable (emit e).
Proof.
  intros m y m' [= <- <-]. split; [simpl; lia|]. split; [by exists [e]|].
  intros a b' Hb _. eauto.
Qed.

Lemma stable_release_storage a : stable (release_storage a).
Proof.
  intros m y m' [= <- <-]. split; [simpl; lia|]. split; [by exists [EvFree a]|].
  simpl. intros a' b' Hb _. apply lookup_delete_Some in Hb as [_ Hb]. eauto.
Qed.

Lemma extends_upd m a b b' :
  heap m !! a = Some b → ptr b' = ptr b → extends m (upd a b' m).
Proof.
  intros Hb Hp. split; [simpl; lia|]. split; [exists []; by rewrite app_nil_r|].
  unfold upd. cbn [heap]. intros a' b1 Hb1 _. destruct (decide (a' = a)) as [->|Hne].
  - rewrite lookup_insert_eq in Hb1. simplify_eq. eauto.
  - rewrite lookup_insert_ne in Hb1 by done. eauto.
Qed.

(** Writing back a block that was read from the same place, with its
    payload pointer untouched. *)
Lemma stable_update a (g : atomic_ptr_ref → atomic_ptr_ref) {B} (k : M B) :
  (∀ b, ptr (g b) = ptr b) → stable k →
  stable (b ← load a; store a (g b);; k).
Proof.
  intros Hg Hk m y m' H.
  apply bind_M_inv in H as (b & m1 & H1 & H).
  unfold load in H1. destruct (heap m !! a) as [b0|] eqn:Hb; simplify_eq.
  apply bind_M_inv in H as ([] & m2 & H2 & H).
  rewrite (store_some _ _ _ _ Hb) in H2. simplify_eq.
  apply (extends_trans _ (upd a (g b) m1)); [by apply (extends_upd m1 a b)|exact (Hk _ _ _ H)].
Qed.

Lemma stable_adjust_at a xe xr : stable (adjust_at a xe xr).
Proof.
  intros m rc m' H. destruct (heap m !! a) as [b|] eqn:Hb.
  - destruct (decide (fits xe xr (count b))) as [Hfit|Hfit].
    + rewrite (adjust_at_ok _ _ _ _ _ Hb Hfit) in H. simplify_eq.
      by apply (extends_upd m a b).
    + by rewrite (adjust_at_overflow _ _ _ _ _ Hb Hfit) in H.
  - by rewrite (adjust_at_none _ _ _ _ Hb) in H.
Qed.

Lemma stable_destroy_or_recycle a : stable (destroy_or_recycle a).
Proof.
  unfold destroy_or_recycle. apply stable_bind; [apply stable_load|]. intros b.
  destruct (pool b); [apply stable_emit|].
  unfold delete_atomic_ptr_ref. apply stable_bind; [apply stable_load|]. intros b0.
  apply stable_bind; [|intros; apply stable_release_storage].
  destruct (ptr b0); [apply stable_emit|apply stable_ret].
Qed.

Lemma stable_new p {B} (k : addr → M B) :
  (∀ a, stable (k a)) → stable (new_atomic_ptr_ref p ≫= k).
Proof.
  intros Hk m y m' H. apply bind_M_inv in H as (a & m1 & H1 & H).
  unfold new_atomic_ptr_ref in H1. simplify_eq.
  eapply extends_trans; [|exact (Hk _ _ _ _ H)].
  split; [simpl; lia|]. split; [exists []; by rewrite app_nil_r|].
  simpl. intros a' b' Hb' Hlt. rewrite lookup_insert_ne in Hb' by lia. eauto.
Qed.

Lemma stable_local_dtor h : stable (local_dtor h).
Proof.
  unfold local_dtor. destruct (refptr h); [|apply stable_ret].
  apply stable_bind; [apply stable_adjust_at|]. intros rc.
  case_decide; [apply stable_destroy_or_recycle|apply stable_ret].
Qed.

Lemma stable_atomic_dtor s : stable (atomic_dtor s).
Proof.
  unfold atomic_dtor. destruct (ref_ptr (xxx s)); [|apply stable_ret].
  apply stable_bind; [apply stable_adjust_at|]. intros rc.
  case_decide; [apply stable_destroy_or_recycle|apply stable_ret].
Qed.

Lemma stable_local_of_obj obj : stable (local_of_obj obj).
Proof.
  unfold local_of_obj. destruct obj; [|apply stable_ret].
  apply stable_new. intros a.
  apply (stable_update a (set_count (Refcount 1 0))); [done|apply stable_ret].
Qed.

Lemma stable_atomic_of_obj obj : stable (atomic_of_obj obj).
Proof.
  unfold atomic_of_obj. destruct obj; [|apply stable_ret].
  apply stable_new. intros a. apply stable_ret.
Qed.

Lemma stable_local_copy src : stable (local_copy src).
Proof.
  unfold local_copy. destruct (refptr src); [|apply stable_ret].
  apply stable_bind; [apply stable_adjust_at|]. intros. apply stable_ret.
Qed.

Lemma stable_atomic_of_local src : stable (atomic_of_local src).
Proof.
  unfold atomic_of_local. destruct (refptr src); [|apply stable_ret].
  apply stable_bind; [apply stable_adjust_at|]. intros. apply stable_ret.
Qed.

Lemma stable_local_recycled src : stable (local_recycled src).
Proof.
  unfold local_recycled. destruct src as [a|]; [|apply stable_ret].
  apply (stable_update a (set_count (Refcount 1 0))); [done|apply stable_ret].
Qed.

Lemma stable_atomic_recycled src : stable (atomic_recycled src).
Proof.
  unfold atomic_recycled. destruct src as [a|]; [|apply stable_ret].
  apply (stable_update a (set_count (Refcount 0 1))); [done|apply stable_ret].
Qed.

Lemma stable_local_of_atomic src : stable (local_of_atomic src).
Proof.
  unfold local_of_atomic. apply stable_bind; [apply stable_lift|].
  intros [p s']. apply stable_ret.
Qed.

Lemma stable_atomic_copy src : stable (atomic_copy src).
Proof.
  unfold atomic_copy. apply stable_bind; [apply stable_lift|]. intros [p s'].
  destruct p; [|apply stable_ret].
  apply stable_bind; [apply stable_adjust_at|]. intros. apply stable_ret.
Qed.

Lemma stable_get h : stable (get h).
Proof.
  unfold get. destruct (refptr h); [|apply stable_ret].
  apply stable_bind; [apply stable_load|]. intros. apply stable_ret.
Qed.

Lemma stable_setPool h p : stable (setPool h p).
Proof.
  unfold setPool. destruct (refptr h) as [a|]; [|apply stable_fail].
  intros m y m' H. unfold mbind, M_bind in H.
  destruct (load a m) as [e|[b m1]] eqn:Hl; [done|].
  unfold load in Hl. destruct (heap m !! a) as [b0|] eqn:Hb; simplify_eq.
  rewrite (store_some _ _ _ _ Hb) in H. simplify_eq.
  by apply (extends_upd m1 a b).
Qed.

Lemma stable_local_replace {A} this temp (k : local_ptr → A) :
  stable (let '(this', temp') := local_swap this temp in local_dtor temp';; mret (k this')).
Proof.
  unfold local_swap. cbn beta iota.
  apply stable_bind; [apply stable_local_dtor|]. intros. apply stable_ret.
Qed.

Lemma stable_atomic_replace this temp :
  stable (lift (swap this temp) ≫= λ '(this', temp'), atomic_dtor temp';; mret this').
Proof.
  apply stable_bind; [apply stable_lift|]. intros [a b].
  apply stable_bind; [apply stable_atomic_dtor|]. intros. apply stable_ret.
Qed.

Lemma stable_local_assign_obj this obj : stable (local_assign_obj this obj).
Proof.
  unfold local_assign_obj. apply stable_bind; [apply stable_local_of_obj|].
  intros temp. apply (stable_local_replace this temp id).
Qed.

Lemma stable_local_assign_local this src : stable (local_assign_local this src).
Proof.
  unfold local_assign_local. apply stable_bind; [apply stable_local_copy|].
  intros temp. apply (stable_local_replace this temp id).
Qed.

Lemma stable_recycle this src : stable (recycle this src).
Proof.
  unfold recycle. apply stable_bind; [apply stable_local_recycled|].
  intros temp. apply (stable_local_replace this temp id).
Qed.

Lemma stable_local_assign_atomic this src : stable (local_assign_atomic this src).
Proof.
  unfold local_assign_atomic. apply stable_bind; [apply stable_local_of_atomic|].
  intros [temp src']. apply (stable_local_replace this temp (λ t, (t, src'))).
Qed.

Lemma stable_atomic_assign_obj this obj : stable (atomic_assign_obj this obj).
Proof.
  unfold atomic_assign_obj. apply stable_bind; [apply stable_atomic_of_obj|].
  intros temp. apply stable_atomic_replace.
Qed.

Lemma stable_atomic_assign_local this src : stable (atomic_assign_local this src).
Proof.
  unfold atomic_assign_local. apply stable_bind; [apply stable_atomic_of_local|].
  intros temp. apply stable_atomic_replace.
Qed.

Lemma stable_recyle this src : stable (recyle this src).
Proof.
  unfold recyle. apply stable_bind; [apply stable_atomic_recycled|].
  intros temp. apply stable_atomic_replace.
Qed.

Lemma stable_atomic_arrow this : stable (atomic_arrow this).
Proof.
  unfold atomic_arrow. apply stable_bind; [apply stable_local_of_atomic|].
  intros [temp this']. apply stable_bind; [apply stable_get|]. intros p.
  apply stable_bind; [apply stable_local_dtor|]. intros. apply stable_ret.
Qed.

Lemma stable_atomic_eq_local this rhd : stable (atomic_eq_local this rhd).
Proof.
  unfold atomic_eq_local. apply stable_bind; [apply stable_local_of_atomic|].
  intros [temp this']. cbv zeta.
  apply stable_bind; [apply stable_local_dtor|]. intros. apply stable_ret.
Qed.

Lemma step_extends o w w' : step o w = inr w' → extends (mach w) (mach w').
Proof.
  destruct w as [m ss hs hi tk]. intros H.
  destruct o; cbn [step] in H; unfold mbind, result_bind, mret, result_ret, obj_at in H;
    repeat (case_match; simplify_eq/=);
    repeat match goal with
    | E : local_of_obj _ _ = inr _ |- _ => apply stable_local_of_obj in E
    | E : local_copy _ _ = inr _ |- _ => apply stable_local_copy in E
    | E : local_of_atomic _ _ = inr _ |- _ => apply stable_local_of_atomic in E
    | E : local_recycled _ _ = inr _ |- _ => apply stable_local_recycled in E
    | E : local_dtor _ _ = inr _ |- _ => apply stable_local_dtor in E
    | E : local_assign_obj _ _ _ = inr _ |- _ => apply stable_local_assign_obj in E
    | E : local_assign_local _ _ _ = inr _ |- _ => apply stable_local_assign_local in E
    | E : local_assign_atomic _ _ _ = inr _ |- _ => apply stable_local_assign_atomic in E
    | E : recycle _ _ _ = inr _ |- _ => apply stable_recycle in E
    | E : setPool _ _ _ = inr _ |- _ => apply stable_setPool in E
    | E : atomic_of_obj _ _ = inr _ |- _ => apply stable_atomic_of_obj in E
    | E : atomic_of_local _ _ = inr _ |- _ => apply stable_atomic_of_local in E
    | E : atomic_copy _ _ = inr _ |- _ => apply stable_atomic_copy in E
    | E : atomic_recycled _ _ = inr _ |- _ => apply stable_atomic_recycled in E
    | E : atomic_dtor _ _ = inr _ |- _ => apply stable_atomic_dtor in E
    | E : atomic_assign_obj _ _ _ = inr _ |- _ => apply stable_atomic_assign_obj in E
    | E : atomic_assign_local _ _ _ = inr _ |- _ => apply stable_atomic_assign_local in E
    | E : recyle _ _ _ = inr _ |- _ => apply stable_recyle in E
    | E : atomic_arrow _ _ = inr _ |- _ => apply stable_atomic_arrow in E
    | E : atomic_eq_local _ _ _ = inr _ |- _ => apply stable_atomic_eq_local in E
    end;
    eauto using extends_refl, extends_trans.
Qed.

Lemma run_extends ops : ∀ w w', run ops w = inr w' → extends (mach w) (mach w').
Proof.
  induction ops as [|o ops IH]; intros w w' H.
  - injection H as <-. apply extends_refl.
  - cbn [run] in H. destruct (step o w) as [f|w1] eqn:Hstep; [done|].
    eapply extends_trans; [by eapply step_extends|by apply IH].
Qed.

(** X13. The library never rewrites a payload pointer and never takes an
    event back. Between two states of a client's run, a block that is
    allocated in both holds the same payload, so every handle keeps
    dereferencing to the object its block was made for; a block freed in
    the earlier state is not allocated in the later one; and the later
    event log extends the earlier one. *)
Theorem payload_pointer_never_changes ops ops' w w' :
  run ops empty_world = inr w → run ops' w = inr w' →
  (∀ a b b', heap (mach w) !! a = Some b → heap (mach w') !! a = Some b' → ptr b' = ptr b) ∧
  (∀ a, (a < brk (mach w))%positive → heap (mach w) !! a = None →
        heap (mach w') !! a = None) ∧
  (∃ l, log (mach w') = log (mach w) ++ l).
Proof.
  intros Hrun Hrun'.
  pose proof (run_inv ops empty_world inv_empty) as Hinv.
  rewrite Hrun in Hinv. simpl in Hinv.
  destruct (run_extends ops' w w' Hrun') as (Hbrk & Hlog & Hext).
  split; [|split; [|exact Hlog]].
  - intros a b b' Hb Hb'.
    destruct (bal_live _ _ _ _ _ _ Hinv a b Hb) as (_ & _ & _ & _ & Hlt & _).
    destruct (Hext a b' Hb' Hlt) as (b0 & Hb0 & Hp).
    pose proof (eq_trans (eq_sym Hb0) Hb) as Heq. injection Heq as ->. by symmetry.
  - intros a Hlt Hnone. destruct (heap (mach w') !! a) as [b'|] eqn:Hb'; [|done].
    destruct (Hext a b' Hb' Hlt) as (b0 & Hb0 & _).
    pose proof (eq_trans (eq_sym Hb0) Hnone) as Heq. discriminate.
Qed.

Lemma payload_pointer_never_changes_witness :
  ∃ w w',
    run [NewSlot (Some 7%positive)] empty_world = inr w ∧
    run [Pin 0; SetPool 0 (Some 3%positive); DropSlot 0] w = inr w' ∧
    ∀ b b', heap (mach w) !! 1%positive = Some b → heap (mach w') !! 1%positive = Some b' →
            ptr b' = ptr b.
Proof.
  eexists _, _. split; [reflexivity|]. split; [reflexivity|].
  exact (proj1 (payload_pointer_never_changes [NewSlot (Some 7%positive)]
                  [Pin 0; SetPool 0 (Some 3%positive); DropSlot 0] _ _ eq_refl eq_refl)
           1%positive).
Defined.

(** ** More on how the calls compose *)

(** X14. The public [swap] of two distinct slots exchanges their pairs and
    touches no block: the free store, the event log and every handle are
    as before. *)
Theorem swap_call_touches_no_block w s t sl other :
  slots w !! s = Some sl → slots w !! t = Some other → s ≠ t →
  ∃ w', step (Swap s t) w = inr w' ∧
        mach w' = mach w ∧ handles w' = handles w ∧
        slots w' !! s = Some (Atomic (xxx other)) ∧
        slots w' !! t = Some (Atomic (xxx sl)) ∧
        ∀ k, k ≠ s → k ≠ t → slots w' !! k = slots w !! k.
Proof.
  destruct w as [m ss hs hi tk]. cbn [slots mach handles]. intros Hs Ht Hne.
  assert (Hls : (s < length ss)%nat) by (by eapply lookup_lt_Some).
  assert (Hlt : (t < length ss)%nat) by (by eapply lookup_lt_Some).
  eexists. cbn [step]. unfold obj_at. rewrite Hs, Ht. simpl. rewrite swap_seq. simpl.
  split; [reflexivity|]. cbn [slots mach handles].
  split; [done|]. split; [done|]. split; [|split].
  - rewrite list_lookup_insert_ne by done. by rewrite list_lookup_insert_eq.
  - by rewrite list_lookup_insert_eq by (by rewrite length_insert).
  - intros k Hks Hkt. by rewrite !list_lookup_insert_ne.
Qed.

Lemma swap_call_touches_no_block_witness :
  ∃ w', step (Swap 0 1)
          (World sample_two [Atomic (Ref 0 (Some 1%positive)); Atomic (Ref 0 None)]
                 [Local (Some 2%positive)] [] []) = inr w' ∧
        mach w' = sample_two ∧ handles w' = [Local (Some 2%positive)] ∧
        slots w' !! 0%nat = Some (Atomic (xxx (Atomic (Ref 0 None)))) ∧
        slots w' !! 1%nat = Some (Atomic (xxx (Atomic (Ref 0 (Some 1%positive))))) ∧
        ∀ k, k ≠ 0%nat → k ≠ 1%nat →
             slots w' !! k
             = [Atomic (Ref 0 (Some 1%positive)); Atomic (Ref 0 None)] !! k.
Proof.
  apply (swap_call_touches_no_block
           (World sample_two [Atomic (Ref 0 (Some 1%positive)); Atomic (Ref 0 None)]
                  [Local (Some 2%positive)] [] [])
           0%nat 1%nat (Atomic (Ref 0 (Some 1%positive))) (Atomic (Ref 0 None)));
    [reflexivity|reflexivity|discriminate].
Defined.

(** X15. Assigning the null payload is a release: for a handle and for a
    slot alike, [x = 0] does to the free store exactly what the
    destructor of [x] does, and leaves [x] empty, with a slot's ephemeral
    count back at 0. *)
Theorem assigning_null_is_release m (h : local_ptr) (s : atomic_ptr) :
  local_assign_obj h None m = (local_dtor h ≫= λ _, mret (Local None)) m ∧
  atomic_assign_obj s None m = (atomic_dtor s ≫= λ _, mret (Atomic (Ref 0 None))) m.
Proof.
  split.
  - destruct h as [p]. reflexivity.
  - destruct s as [[e p]]. unfold atomic_assign_obj.
    unfold mbind at 1, M_bind at 1. cbn [atomic_of_obj mret M_ret].
    unfold atomic_of_obj. cbn [mret M_ret].
    unfold mbind at 1, M_bind at 1, lift. rewrite swap_seq. reflexivity.
Qed.

(** X16. The order in which the last slot and the last handle of a block
    go does not matter. With one slot holding the block and one handle
    pinned from it (so that the block's ephemeral count and the slot's
    add up to 1), destructing slot then handle, or handle then slot, ends
    in the same free store: the block is gone, and its payload was
    destructed and its storage freed once, by whichever came second. *)
Theorem last_release_order_is_irrelevant m a e ec p nx :
  heap m !! a = Some (Block (Refcount e 1) (Some p) None nx) →
  e + ec = 1 → in_long (e - 1) →
  let final := Machine (delete a (heap m)) (brk m) (log m ++ [EvDelete p; EvFree a]) in
  (atomic_dtor (Atomic (Ref ec (Some a))) ≫= λ _, local_dtor (Local (Some a))) m
    = inr (tt, final) ∧
  (local_dtor (Local (Some a)) ≫= λ _, atomic_dtor (Atomic (Ref ec (Some a)))) m
    = inr (tt, final).
Proof.
  intros Hb Hsum Hl final.
  assert (H1 : in_long 1) by (vm_compute; split; discriminate).
  assert (H0 : in_long 0) by (vm_compute; split; discriminate).
  split.
  - assert (Hs : atomic_dtor (Atomic (Ref ec (Some a))) m
                 = inr (tt, upd a (Block (Refcount 1 0) (Some p) None nx) m)).
    { rewrite (atomic_dtor_run m a _ ec Hb).
      - cbn [count ecount rcount]. cbv zeta. rewrite decide_False by lia.
        unfold set_count. cbn [ptr pool next]. rewrite Hsum. done.
      - split; cbn [count ecount rcount]; [by rewrite Hsum|done]. }
    rewrite (bind_inr _ _ _ _ _ Hs).
    rewrite (local_dtor_run _ a _ (upd_lookup _ _ _)).
    + cbn [count]. cbv zeta. rewrite decide_True by done.
      unfold spec_destroy_or_recycle, set_count, upd. cbn [count ptr pool next heap brk log].
      unfold final. by rewrite !delete_insert_eq.
    + split; cbn [count ecount rcount]; done.
  - assert (Hh : local_dtor (Local (Some a)) m
                 = inr (tt, upd a (Block (Refcount (e - 1) 1) (Some p) None nx) m)).
    { rewrite (local_dtor_run m a _ Hb).
      - cbn [count ecount rcount]. cbv zeta. by rewrite decide_False.
      - split; cbn [count ecount rcount]; [|done].
        by replace (e + -1) with (e - 1) by lia. }
    rewrite (bind_inr _ _ _ _ _ Hh).
    rewrite (atomic_dtor_run _ a _ ec (upd_lookup _ _ _)).
    + cbn [count ecount rcount]. cbv zeta. rewrite decide_True by lia.
      unfold spec_destroy_or_recycle, set_count, upd. cbn [count ptr pool next heap brk log].
      unfold final. by rewrite !delete_insert_eq.
    + split; cbn [count ecount rcount]; [|done].
      by replace (e - 1 + ec) with 0 by lia.
Qed.

Lemma last_release_order_is_irrelevant_witness :
  (atomic_dtor (Atomic (Ref 1 (Some 1%positive))) ≫= λ _, local_dtor (Local (Some 1%positive)))
    sample_owned
  = inr (tt, Machine (delete 1%positive (heap sample_owned)) (brk sample_owned)
               (log sample_owned ++ [EvDelete 9%positive; EvFree 1%positive])) ∧
  (local_dtor (Local (Some 1%positive)) ≫= λ _, atomic_dtor (Atomic (Ref 1 (Some 1%positive))))
    sample_owned
  = inr (tt, Machine (delete 1%positive (heap sample_owned)) (brk sample_owned)
               (log sample_owned ++ [EvDelete 9%positive; EvFree 1%positive])).
Proof.
  apply (last_release_order_is_irrelevant sample_owned 1%positive 0 1 9%positive None).
  - reflexivity.
  - reflexivity.
  - vm_compute; split; discriminate.
Defined.
